(** * syncutil: invariant-checking mutex and task bundle

    A shallow embedding of [invariant_mutex.go] and [syncutil/bundle.go].

    - [Mutex] models [InvariantMutex]: a [sync.RWMutex] paired with a
      [check func()], in a small state-and-panic monad whose world holds
      the flag [fCheckInvariants], the guarded object and a log of the
      calls made.
    - [Bundle] models [Bundle]: the bodies of [Add], of the goroutine it
      starts and of [Join] are cut into their statements, and an
      interleaving semantics runs them one statement at a time under an
      arbitrary schedule, together with calls of [Add] and [Join] by
      anybody at any time and cancellations of other contexts.

    The Go packages [sync] and [context] are not part of the repository;
    they are modelled by their documented contracts and the panics of
    their implementation: a [WaitGroup] is its counter and its waiters;
    [Wait] returns at once when the counter is zero and otherwise
    sleeps until the [Done] that brings the counter to zero releases
    it, and panics when it then finds the wait group in use again;
    [Add] panics on a negative counter and when it starts from zero
    while a waiter sleeps. That [Done] and its release of the waiters
    are one step. A [Once] runs
    the function of the first [Do] while the other callers wait; a
    context is cancelled when its cancel function or the one of an
    ancestor has been called. All shared fields of the bundle are
    accessed under these primitives, so statements are interleaved
    sequentially consistently, and "happens before" is the order of the
    trace. An operation is taken by what it returns given the state of
    its context when it returns; panics inside operations end the
    process and are not modelled.

    [MutexFacts] and [BundleFacts] hold the theorems. *)

From stdpp Require Import base list gmap strings.
From Stdlib Require Import ZArith Lia.

(* ================================================================== *)
(** * invariant_mutex.go *)
(* ================================================================== *)

Module Mutex.

(** [sync.RWMutex]: either held by one writer or by a number of readers.
    The zero value is an unlocked mutex. *)
Record RWMutex := { writer : bool; readers : nat }.

Definition zeroRWMutex : RWMutex := {| writer := false; readers := 0 |}.

(** What the log records: the four calls on the underlying [sync.RWMutex]
    and every call of the check function. *)
Inductive event := EvLock | EvUnlock | EvRLock | EvRUnlock | EvCheck.

Global Instance event_eq_dec : EqDecision event.
Proof. solve_decision. Defined.

Section WithObject.

(** The state of the object the mutex guards: what [check] looks at. *)
Context {U : Type}.

(** A call of a Go [func()] closure over the object either returns,
    leaving the object in some state, or panics. *)
Inductive call := Returns (u : U) | Panics (msg : string).

(** A Go value of type [func()]: [nil] or a closure. *)
Definition func := option (U -> call).

Record world := {
  fCheckInvariants : bool;   (* var fCheckInvariants = flag.Bool(..., false, ...) *)
  object : U;
  log : list event
}.

Definition emit (e : event) (w : world) : world :=
  {| fCheckInvariants := fCheckInvariants w;
     object := object w;
     log := log w ++ [e] |}.

Definition set_object (u : U) (w : world) : world :=
  {| fCheckInvariants := fCheckInvariants w;
     object := u;
     log := log w |}.

(** Results of a computation: a normal return, a panic, or a goroutine
    that is blocked on the mutex. *)
Inductive result (A : Type) :=
| Ret (a : A) (w : world)
| Panic (msg : string) (w : world)
| Blocked.
Global Arguments Ret {A} a w.
Global Arguments Panic {A} msg w.
Global Arguments Blocked {A}.

Definition M (A : Type) := world -> result A.

Definition ret {A} (a : A) : M A := fun w => Ret a w.

Definition bind {A B} (m : M A) (k : A -> M B) : M B :=
  fun w =>
    match m w with
    | Ret a w' => k a w'
    | Panic msg w' => Panic msg w'
    | Blocked => Blocked
    end.

Definition panic {A} (msg : string) : M A := fun w => Panic msg w.

Notation "x <- m ;; k" := (bind m (fun x => k))
  (at level 100, m at next level, right associativity).
Notation "m ;;; k" := (bind m (fun _ => k))
  (at level 100, right associativity).

(** Calling a [func()] value. Calling [nil] is a run-time panic. *)
Definition call_func (f : func) : M unit :=
  match f with
  | None => panic "runtime error: invalid memory address or nil pointer dereference"
  | Some c =>
      fun w =>
        let w1 := emit EvCheck w in
        match c (object w1) with
        | Returns u => Ret tt (set_object u w1)
        | Panics msg => Panic msg w1
        end
  end.

(** ** The four methods of [sync.RWMutex] *)

Definition rw_Lock (m : RWMutex) : M RWMutex :=
  fun w =>
    if writer m || negb (readers m =? 0) then Blocked
    else Ret {| writer := true; readers := readers m |} (emit EvLock w).

Definition rw_Unlock (m : RWMutex) : M RWMutex :=
  fun w =>
    if writer m
    then Ret {| writer := false; readers := readers m |} (emit EvUnlock w)
    else Panic "sync: Unlock of unlocked RWMutex" w.

Definition rw_RLock (m : RWMutex) : M RWMutex :=
  fun w =>
    if writer m then Blocked
    else Ret {| writer := false; readers := S (readers m) |} (emit EvRLock w).

Definition rw_RUnlock (m : RWMutex) : M RWMutex :=
  fun w =>
    match readers m with
    | O => Panic "sync: RUnlock of unlocked RWMutex" w
    | S n => Ret {| writer := writer m; readers := n |} (emit EvRUnlock w)
    end.

(** The four methods of a mutex. *)
Inductive method := mLock | mUnlock | mRLock | mRUnlock.


(** ** [InvariantMutex] *)

Record InvariantMutex := { mu : RWMutex; check : func }.

Definition set_mu (m : RWMutex) (i : InvariantMutex) : InvariantMutex :=
  {| mu := m; check := check i |}.

(** [func (i *InvariantMutex) checkIfEnabled()] *)
Definition checkIfEnabled (i : InvariantMutex) : M unit :=
  fun w =>
    if fCheckInvariants w then call_func (check i) w
    else Ret tt w.

(** [func (i *InvariantMutex) Lock()]. The receiver is a pointer: the
    method returns the struct as it has become. *)
Definition Lock (i : InvariantMutex) : M InvariantMutex :=
  m <- rw_Lock (mu i) ;;
  checkIfEnabled (set_mu m i) ;;;
  ret (set_mu m i).

(** [func (i *InvariantMutex) Unlock()] *)
Definition Unlock (i : InvariantMutex) : M InvariantMutex :=
  checkIfEnabled i ;;;
  m <- rw_Unlock (mu i) ;;
  ret (set_mu m i).

(** [func (i *InvariantMutex) RLock()] *)
Definition RLock (i : InvariantMutex) : M InvariantMutex :=
  m <- rw_RLock (mu i) ;;
  checkIfEnabled (set_mu m i) ;;;
  ret (set_mu m i).

(** [func (i *InvariantMutex) RUnlock()] *)
Definition RUnlock (i : InvariantMutex) : M InvariantMutex :=
  checkIfEnabled i ;;;
  m <- rw_RUnlock (mu i) ;;
  ret (set_mu m i).

(** [func NewInvariantMutex(check func()) InvariantMutex] *)
Definition NewInvariantMutex (check : func) : M InvariantMutex :=
  match check with
  | None => panic "check must be non-nil."
  | Some _ =>
      (fun w => if fCheckInvariants w then call_func check w else Ret tt w) ;;;
      ret {| mu := zeroRWMutex; check := check |}
  end.

(** ** Clients

    A client of a mutex is a sequence of calls of its four methods. *)
Definition invoke (m : method) (i : InvariantMutex) : M InvariantMutex :=
  match m with
  | mLock => Lock i
  | mUnlock => Unlock i
  | mRLock => RLock i
  | mRUnlock => RUnlock i
  end.

Fixpoint invoke_all (ms : list method) (i : InvariantMutex) : M InvariantMutex :=
  match ms with
  | [] => ret i
  | m :: ms' => i' <- invoke m i ;; invoke_all ms' i'
  end.


(** Number of times the check function has been called. *)
Definition checks (w : world) : nat := length (filter (eq EvCheck) (log w)).

End WithObject.

Global Arguments call : clear implicits.
Global Arguments func : clear implicits.
Global Arguments world : clear implicits.
Global Arguments result : clear implicits.
Global Arguments M : clear implicits.
Global Arguments InvariantMutex : clear implicits.

(** ** The example of the documentation

    [myStruct] with its invariant [nextGeneration == currentGeneration + 1];
    the panic message is not formatted here. *)
Record myStruct := { currentGeneration : Z; nextGeneration : Z }.

Definition checkInvariants (s : myStruct) : call myStruct :=
  if (nextGeneration s =? currentGeneration s + 1)%Z then Returns s
  else Panics "nextGeneration != currentGeneration + 1".

Definition newMyStruct : myStruct :=
  {| currentGeneration := 1; nextGeneration := 2 |}.

(** A process started with or without [-syncutil.check_invariants]. *)
Definition start (flag : bool) (s : myStruct) : world myStruct :=
  {| fCheckInvariants := flag; object := s; log := [] |}.

(** ** Critical sections

    The use the documentation shows: [mu.Lock()], [defer mu.Unlock()],
    then assignments to the guarded object. *)
Section Clients.

Context {U : Type}.

(** Assignments to the guarded object. *)
Definition modify (g : U -> U) : M U unit :=
  fun w => Ret tt (set_object (g (object w)) w).

Definition critical (body : U -> U) (i : InvariantMutex U)
  : M U (InvariantMutex U) :=
  bind (Lock i) (fun i1 => bind (modify body) (fun _ => Unlock i1)).

(** A world as a process without the flag would have it: no calls of
    the check function in the log. *)
Definition strip (w : world U) : world U :=
  {| fCheckInvariants := false;
     object := object w;
     log := filter (fun e => e <> EvCheck) (log w) |}.

Definition map_result {A} (f : world U -> world U) (r : result U A)
  : result U A :=
  match r with
  | Ret a w => Ret a (f w)
  | Panic msg w => Panic msg (f w)
  | Blocked => Blocked
  end.

(** The message of the Go runtime for a call of a nil function. *)
Definition nil_dereference : string :=
  "runtime error: invalid memory address or nil pointer dereference".

End Clients.

End Mutex.

(* ================================================================== *)
(** * syncutil/bundle.go *)
(* ================================================================== *)

Module Bundle.

Local Open Scope Z_scope.

(** A Go [error]: [nil] is [None], a failure carries its message. *)
Definition error := option string.

(** ** Package [context], by its contract

    A context is [context.Background()] or was derived from a parent by
    [context.WithCancel]; a derived context is identified by the number
    of its cancel function. The store remembers which cancel functions
    have been called. *)
Inductive Context := Background | Derived (id : nat) (parent : Context).

(** A [context.CancelFunc] is known by the context it cancels. *)
Definition CancelFunc := nat.

Record store := { cancelled : gset nat; next_id : nat }.

(** [ctx.Err() != nil]: a context is cancelled once its own cancel
    function or the one of an ancestor has been called. *)
Fixpoint Err (c : gset nat) (ctx : Context) : bool :=
  match ctx with
  | Background => false
  | Derived id parent => bool_decide (id ∈ c) || Err c parent
  end.

Fixpoint ctx_ids (ctx : Context) : list nat :=
  match ctx with
  | Background => []
  | Derived id parent => id :: ctx_ids parent
  end.

(** [context.WithCancel(parent)] *)
Definition WithCancel (parent : Context) (st : store)
  : Context * CancelFunc * store :=
  (Derived (next_id st) parent, next_id st,
   {| cancelled := cancelled st; next_id := S (next_id st) |}).

(** ** Package [sync], by its contract

    [sync.Once]: nobody has called [Do], or the function passed to the
    first [Do] is running in goroutine [owner] (the others wait), or it
    has returned. *)
Inductive Once := OnceFresh | OnceRunning (owner : nat) | OnceDone.

(** ** [type Bundle struct] *)
Record Bundle := {
  context : Context;
  cancel : CancelFunc;
  waitGroup : Z;              (* the counter of the sync.WaitGroup *)
  errorOnce : Once;
  firstError : error
}.

(** [func NewBundle(parent context.Context) *Bundle]; a [nil] parent is
    [None]. *)
Definition NewBundle (parent : option Context) (st : store) : Bundle * store :=
  let parent :=
    match parent with
    | None => Background
    | Some p => p
    end in
  let '(ctx, cancel, st') := WithCancel parent st in
  ({| context := ctx; cancel := cancel;
      waitGroup := 0; errorOnce := OnceFresh; firstError := None |}, st').

(** ** Operations and goroutines

    An operation [f func(context.Context) error] is taken by what it
    returns, given what it has observed of its context: cancelled or
    not. *)
Definition operation := bool -> error.

(** Where a call [b.Add(f)] stands. [err] is the local variable of the
    function literal. *)
Inductive pc :=
| pcGo (f : operation)      (* b.waitGroup.Add(1) done; at the go statement *)
| pcCall (f : operation)    (* goroutine started; at err := f(b.context) *)
| pcOnceDo (err : string)   (* err != nil; at b.errorOnce.Do(...) *)
| pcStore (err : string)    (* inside Do; at b.firstError = err *)
| pcCancel (err : string)   (* inside Do; at b.cancel() *)
| pcOnceExit (err : string) (* the function passed to Do has returned *)
| pcDone (err : error)      (* at the deferred b.waitGroup.Done() *)
| pcExit (err : error).     (* the goroutine has returned *)

(** Where a call [b.Join()] stands. [n] is the number of calls of [Add]
    made before this call of [Join]. *)
Inductive jpc :=
| jWait (n : nat)                   (* at b.waitGroup.Wait() *)
| jSleep (n : nat)                  (* in Wait: counted as a waiter, asleep *)
| jWoken (n : nat)                  (* in Wait: released, not yet running *)
| jRead (n : nat)                   (* at return b.firstError *)
| jReturned (n : nat) (r : error).  (* has returned r *)

(** What happened, in order. *)
Inductive obs :=
| ObsStore (i : nat) (err : string)   (* operation i executed b.firstError = err *)
| ObsCancel (i : nat)                 (* operation i executed b.cancel() *)
| ObsJoin (j : nat) (r : error).      (* call j of Join returned r *)

Record state := {
  b : Bundle;
  ctxs : store;
  ops : list pc;       (* the calls of Add, in order *)
  joins : list jpc;    (* the calls of Join, in order *)
  tr : list obs
}.

Definition init (parent : option Context) (st : store) : state :=
  let '(b, st') := NewBundle parent st in
  {| b := b; ctxs := st'; ops := []; joins := []; tr := [] |}.

Definition set_b (b' : Bundle) (s : state) : state :=
  {| b := b'; ctxs := ctxs s; ops := ops s; joins := joins s; tr := tr s |}.

Definition set_ops (o : list pc) (s : state) : state :=
  {| b := b s; ctxs := ctxs s; ops := o; joins := joins s; tr := tr s |}.

Definition set_joins (j : list jpc) (s : state) : state :=
  {| b := b s; ctxs := ctxs s; ops := ops s; joins := j; tr := tr s |}.

Definition record (o : obs) (s : state) : state :=
  {| b := b s; ctxs := ctxs s; ops := ops s; joins := joins s; tr := tr s ++ [o] |}.

Definition call_cancel (id : CancelFunc) (s : state) : state :=
  {| b := b s;
     ctxs := {| cancelled := {[ id ]} ∪ cancelled (ctxs s); next_id := next_id (ctxs s) |};
     ops := ops s; joins := joins s; tr := tr s |}.

Definition wg_add (delta : Z) (b : Bundle) : Bundle :=
  {| context := context b; cancel := cancel b;
     waitGroup := waitGroup b + delta;
     errorOnce := errorOnce b; firstError := firstError b |}.

Definition set_errorOnce (o : Once) (b : Bundle) : Bundle :=
  {| context := context b; cancel := cancel b; waitGroup := waitGroup b;
     errorOnce := o; firstError := firstError b |}.

Definition set_firstError (e : error) (b : Bundle) : Bundle :=
  {| context := context b; cancel := cancel b; waitGroup := waitGroup b;
     errorOnce := errorOnce b; firstError := e |}.

Definition set_op (i : nat) (p : pc) (s : state) : state :=
  set_ops (<[i := p]> (ops s)) s.

Definition set_join (j : nat) (p : jpc) (s : state) : state :=
  set_joins (<[j := p]> (joins s)) s.

(** ** The waiters of the wait group

    [Wait] returns at once when the counter is zero. Otherwise the
    caller is counted as a waiter and sleeps, until an [Add] that
    brings the counter to zero releases all waiters; a released waiter
    that finds the wait group in use again panics
    ("sync: WaitGroup is reused before previous Wait has returned").
    An [Add] that raises the counter from zero while a waiter sleeps
    panics as well ("sync: WaitGroup misuse: Add called concurrently
    with Wait"). The number of waiters is the number of sleeping calls
    of [Join]; only calls of [Join] wait on the wait group of a
    bundle. *)
Definition asleep (p : jpc) : bool :=
  match p with
  | jSleep _ => true
  | _ => false
  end.

Definition waiters (l : list jpc) : nat := length (filter (fun p => asleep p = true) l).

Definition wake (p : jpc) : jpc :=
  match p with
  | jSleep n => jWoken n
  | _ => p
  end.

(** The calls of [Join] after an [Add] that has left the counter at [v]. *)
Definition released (v : Z) (l : list jpc) : list jpc :=
  if (0 <? v) || (waiters l =? 0)%nat then l else wake <$> l.

(** ** Steps *)

Inductive outcome :=
| Next (s : state)
| Stuck                     (* the goroutine is blocked, or there is no such step *)
| Crash (msg : string).     (* the process panics *)

(** What the scheduler and the callers can do. *)
Inductive event :=
| CallAdd (f : operation)   (* a caller enters b.Add(f) *)
| StepOp (i : nat)          (* call i of Add, or its goroutine, runs one statement *)
| CallJoin                  (* a caller enters b.Join() *)
| StepJoin (j : nat)        (* call j of Join runs one statement *)
| EnvCancel (id : nat).     (* somebody else calls the cancel function id *)

(** One statement of [Add] or of the goroutine it starts. *)
Definition step_op (i : nat) (s : state) : outcome :=
  match ops s !! i with
  | None => Stuck
  | Some (pcGo f) => Next (set_op i (pcCall f) s)
  | Some (pcCall f) =>
      match f (Err (cancelled (ctxs s)) (context (b s))) with
      | None => Next (set_op i (pcDone None) s)
      | Some err => Next (set_op i (pcOnceDo err) s)
      end
  | Some (pcOnceDo err) =>
      match errorOnce (b s) with
      | OnceFresh =>
          Next (set_op i (pcStore err) (set_b (set_errorOnce (OnceRunning i) (b s)) s))
      | OnceRunning _ => Stuck
      | OnceDone => Next (set_op i (pcDone (Some err)) s)
      end
  | Some (pcStore err) =>
      Next (set_op i (pcCancel err)
              (record (ObsStore i err) (set_b (set_firstError (Some err) (b s)) s)))
  | Some (pcCancel err) =>
      Next (set_op i (pcOnceExit err)
              (record (ObsCancel i) (call_cancel (cancel (b s)) s)))
  | Some (pcOnceExit err) =>
      Next (set_op i (pcDone (Some err)) (set_b (set_errorOnce OnceDone (b s)) s))
  | Some (pcDone err) =>
      if waitGroup (b s) - 1 <? 0
      then Crash "sync: negative WaitGroup counter"
      else Next (set_op i (pcExit err)
                   (set_joins (released (waitGroup (b s) - 1) (joins s))
                      (set_b (wg_add (-1) (b s)) s)))
  | Some (pcExit _) => Stuck
  end.

(** One statement of [Join]. *)
Definition step_join (j : nat) (s : state) : outcome :=
  match joins s !! j with
  | None => Stuck
  | Some (jWait n) =>
      if waitGroup (b s) =? 0 then Next (set_join j (jRead n) s)
      else Next (set_join j (jSleep n) s)
  | Some (jSleep n) => Stuck
  | Some (jWoken n) =>
      if (waitGroup (b s) =? 0) && (waiters (joins s) =? 0)%nat
      then Next (set_join j (jRead n) s)
      else Crash "sync: WaitGroup is reused before previous Wait has returned"
  | Some (jRead n) =>
      Next (set_join j (jReturned n (firstError (b s)))
              (record (ObsJoin j (firstError (b s))) s))
  | Some (jReturned _ _) => Stuck
  end.

Definition step (ev : event) (s : state) : outcome :=
  match ev with
  | CallAdd f =>
      if negb (waiters (joins s) =? 0)%nat && (waitGroup (b s) + 1 =? 1)
      then Crash "sync: WaitGroup misuse: Add called concurrently with Wait"
      else Next (set_ops (ops s ++ [pcGo f]) (set_b (wg_add 1 (b s)) s))
  | StepOp i => step_op i s
  | CallJoin =>
      Next (set_joins (joins s ++ [jWait (length (ops s))]) s)
  | StepJoin j => step_join j s
  | EnvCancel id =>
      (* the bundle keeps its cancel function to itself *)
      if decide (id = cancel (b s)) then Stuck else Next (call_cancel id s)
  end.

Fixpoint run (evs : list event) (s : state) : outcome :=
  match evs with
  | [] => Next s
  | ev :: evs' =>
      match step ev s with
      | Next s' => run evs' s'
      | o => o
      end
  end.

(** ** Reachable states *)

Definition parent_or_background (parent : option Context) : Context :=
  match parent with
  | None => Background
  | Some p => p
  end.

(** The store a bundle is created in has handed out only numbers below
    [next_id]. *)
Definition store_ok (st : store) (parent : option Context) : Prop :=
  (∀ id, id ∈ cancelled st → (id < next_id st)%nat) ∧
  (∀ id, id ∈ ctx_ids (parent_or_background parent) → (id < next_id st)%nat).

(** The states of a bundle made by [NewBundle parent] in store [st],
    under every schedule. *)
Inductive reachable (parent : option Context) (st : store) : state -> Prop :=
| reach_init :
    store_ok st parent -> reachable parent st (init parent st)
| reach_step s ev s' :
    reachable parent st s -> step ev s = Next s' -> reachable parent st s'.

(** The state an outcome carries; the argument when there is none. *)
Definition state_of (o : outcome) (s : state) : state :=
  match o with
  | Next s' => s'
  | _ => s
  end.

(** ** Reading a state *)

Definition exited (p : pc) : bool :=
  match p with
  | pcExit _ => true
  | _ => false
  end.

(** The operation is inside the function passed to [b.errorOnce.Do]. *)
Definition inside_once (p : pc) : bool :=
  match p with
  | pcStore _ | pcCancel _ | pcOnceExit _ => true
  | _ => false
  end.

(** The failure the operation has returned, if it has returned one:
    the value of the local variable [err]. *)
Definition failure (p : pc) : error :=
  match p with
  | pcGo _ | pcCall _ => None
  | pcOnceDo e | pcStore e | pcCancel e | pcOnceExit e => Some e
  | pcDone e | pcExit e => e
  end.

(** The failure of an operation that is past [b.errorOnce.Do]. *)
Definition past_once (p : pc) : error :=
  match p with
  | pcDone e | pcExit e => e
  | _ => None
  end.

(** The calls of [Add] whose goroutine has not returned yet. *)
Fixpoint outstanding (l : list pc) : Z :=
  match l with
  | [] => 0
  | p :: l' => (if exited p then 0 else 1) + outstanding l'
  end.

(** The statements a call of [Add] and its goroutine have still to run,
    at most. *)
Definition remaining_of (p : pc) : nat :=
  match p with
  | pcGo _ => 7
  | pcCall _ => 6
  | pcOnceDo _ => 5
  | pcStore _ => 4
  | pcCancel _ => 3
  | pcOnceExit _ => 2
  | pcDone _ => 1
  | pcExit _ => 0
  end.

Fixpoint remaining (l : list pc) : nat :=
  match l with
  | [] => 0
  | p :: l' => remaining_of p + remaining l'
  end.

(** The operation has returned success, or will whatever it observes. *)
Definition succeeds (p : pc) : Prop :=
  match p with
  | pcGo f | pcCall f => ∀ c, f c = None
  | _ => failure p = None
  end.

Definition all_exited (s : state) : Prop :=
  ∀ i p, ops s !! i = Some p → exited p = true.

(** The assignments to [b.firstError] and the calls of [b.cancel] that
    have been executed, in order. *)
Definition stores (t : list obs) : list (nat * string) :=
  omap (λ o, match o with ObsStore i e => Some (i, e) | _ => None end) t.

Definition cancels (t : list obs) : list nat :=
  omap (λ o, match o with ObsCancel i => Some i | _ => None end) t.

(** [x] occurs in [t], and [y] occurs later. *)
Definition before (x y : obs) (t : list obs) : Prop :=
  ∃ l1 l2 l3, t = l1 ++ x :: l2 ++ y :: l3.

(** A schedule in which nobody calls [Add]. *)
Definition is_add (ev : event) : bool :=
  match ev with
  | CallAdd _ => true
  | _ => false
  end.

Definition no_add (evs : list event) : bool :=
  forallb (λ ev, negb (is_add ev)) evs.

(** A schedule in which only the calls of [Add] and their goroutines
    run. *)
Definition is_step_op (ev : event) : bool :=
  match ev with
  | StepOp _ => true
  | _ => false
  end.

Definition only_ops (evs : list event) : bool := forallb is_step_op evs.

(** A whole call of [Join] that starts in state [s], with nothing else
    running in between. *)
Definition Join (s : state) : outcome :=
  let j := length (joins s) in
  run [CallJoin; StepJoin j; StepJoin j] s.

(** No call of [Join] was released and then overtaken by a call of
    [Add]. *)
Definition woken_ok (s : state) : Prop :=
  ∀ j n, joins s !! j = Some (jWoken n) → waitGroup (b s) = 0.

(** A call of [Join] that has entered [Wait] while nobody calls [Add]
    any more: it sleeps, or all goroutines have returned and what it
    returns is the slot. *)
Definition after_wait (j : nat) (s : state) : Prop :=
  match joins s !! j with
  | Some (jSleep _) => True
  | Some (jWoken _) | Some (jRead _) => all_exited s
  | Some (jReturned _ r) => all_exited s ∧ r = firstError (b s)
  | _ => False
  end.

(** What a call of [Join] has returned. *)
Definition join_result (j : nat) (s : state) : option error :=
  match joins s !! j with
  | Some (jReturned _ r) => Some r
  | _ => None
  end.

(** ** Invariants of the reachable states *)

Definition inv_counter (s : state) : Prop :=
  waitGroup (b s) = outstanding (ops s).

Definition inv_owner (s : state) : Prop :=
  ∀ j q, ops s !! j = Some q → inside_once q = true →
         errorOnce (b s) = OnceRunning j.

(** Three stages of the first-error slot and of the bundle's own cancel
    function: nothing done; [b.firstError = e] executed by operation [i];
    [b.cancel()] executed by it as well. *)
Definition untouched (s : state) : Prop :=
  firstError (b s) = None ∧ stores (tr s) = [] ∧ cancels (tr s) = [] ∧
  cancel (b s) ∉ cancelled (ctxs s).

Definition stored (s : state) (i : nat) (e : string) : Prop :=
  firstError (b s) = Some e ∧ stores (tr s) = [(i, e)] ∧ cancels (tr s) = [] ∧
  cancel (b s) ∉ cancelled (ctxs s).

Definition cancelled_by (s : state) (i : nat) (e : string) : Prop :=
  firstError (b s) = Some e ∧ stores (tr s) = [(i, e)] ∧ cancels (tr s) = [i] ∧
  cancel (b s) ∈ cancelled (ctxs s).

Definition inv_fresh (s : state) : Prop :=
  errorOnce (b s) = OnceFresh → untouched s.

Definition inv_running (s : state) : Prop :=
  ∀ i, errorOnce (b s) = OnceRunning i →
       ∃ p, ops s !! i = Some p ∧ inside_once p = true.

Definition inv_store (s : state) : Prop :=
  ∀ i e, ops s !! i = Some (pcStore e) → untouched s.

Definition inv_cancel (s : state) : Prop :=
  ∀ i e, ops s !! i = Some (pcCancel e) → stored s i e.

Definition inv_exit (s : state) : Prop :=
  ∀ i e, ops s !! i = Some (pcOnceExit e) → cancelled_by s i e.

Definition inv_done (s : state) : Prop :=
  errorOnce (b s) = OnceDone →
  ∃ i e p, ops s !! i = Some p ∧ past_once p = Some e ∧ cancelled_by s i e.

Definition inv_failed (s : state) : Prop :=
  ∀ j p e, ops s !! j = Some p → past_once p = Some e →
           errorOnce (b s) = OnceDone.

Definition inv_ctx (parent : option Context) (st : store) (s : state) : Prop :=
  context (b s) = Derived (next_id st) (parent_or_background parent) ∧
  cancel (b s) = next_id st.

(** What is known of the operations when a call of [Join] stands at [p]. *)
Definition join_ok (o : list pc) (p : jpc) : Prop :=
  match p with
  | jWait n | jSleep n | jWoken n => (n ≤ length o)%nat
  | jRead n | jReturned n _ =>
      ∀ i, (i < n)%nat → ∃ e, o !! i = Some (pcExit e)
  end.

Definition inv_joins (s : state) : Prop :=
  ∀ j p, joins s !! j = Some p →
    match p with
    | jWait n | jSleep n | jWoken n => (n ≤ length (ops s))%nat
    | jRead n | jReturned n _ =>
        ∀ i, (i < n)%nat → ∃ e, ops s !! i = Some (pcExit e)
    end.

(** While a call of [Join] sleeps, a goroutine has not returned. *)
Definition inv_sleepers (s : state) : Prop :=
  ∀ j n, joins s !! j = Some (jSleep n) → 1 ≤ waitGroup (b s).

Definition inv_surfaced (s : state) : Prop :=
  ∀ j e, ObsJoin j (Some e) ∈ tr s → firstError (b s) = Some e.

Definition inv_order (s : state) : Prop :=
  ∀ i, ObsCancel i ∈ tr s → ∃ e, before (ObsStore i e) (ObsCancel i) (tr s).

Record Inv (parent : option Context) (st : store) (s : state) : Prop := {
  Inv_counter : inv_counter s;
  Inv_owner : inv_owner s;
  Inv_fresh : inv_fresh s;
  Inv_running : inv_running s;
  Inv_store : inv_store s;
  Inv_cancel : inv_cancel s;
  Inv_exit : inv_exit s;
  Inv_done : inv_done s;
  Inv_failed : inv_failed s;
  Inv_ctx : inv_ctx parent st s;
  Inv_joins : inv_joins s;
  Inv_surfaced : inv_surfaced s;
  Inv_order : inv_order s;
  Inv_sleepers : inv_sleepers s
}.

(** ** Example schedules *)

Definition st0 : store := {| cancelled := ∅; next_id := 0 |}.

Definition op_ok : operation := fun _ => None.
Definition op_fail (e : string) : operation := fun _ => Some e.

(** An operation that gives up when it finds its context cancelled. *)
Definition op_polite : operation :=
  fun c => if c then Some "context canceled" else None.

(** The state a schedule leads to from a new bundle without parent. *)
Definition after (evs : list event) : state :=
  state_of (run evs (init None st0)) (init None st0).

(** Operations 0 and 1 fail and operation 2 succeeds; operation 1 is
    the first at [b.errorOnce.Do]. All goroutines run to their end. *)
Definition race : list event :=
  [CallAdd (op_fail "E1"); CallAdd (op_fail "E2"); CallAdd op_ok;
   StepOp 0; StepOp 1; StepOp 2;
   StepOp 0; StepOp 1;
   StepOp 1; StepOp 1; StepOp 1; StepOp 1;
   StepOp 0; StepOp 2;
   StepOp 0; StepOp 1; StepOp 2]%nat.

(** A bundle under a parent that somebody else can cancel. *)
Definition parent1 : Context := Derived 0 Background.
Definition st1 : store := {| cancelled := ∅; next_id := 1 |}.

(** Three operations that succeed, run to their end. *)
Definition calm : list event :=
  [CallAdd op_ok; CallAdd op_ok; CallAdd op_ok;
   StepOp 0; StepOp 1; StepOp 2;
   StepOp 0; StepOp 1; StepOp 2;
   StepOp 0; StepOp 1; StepOp 2]%nat.

End Bundle.

(* ================================================================== *)
(** * Facts about the invariant mutex *)
(* ================================================================== *)

Module MutexFacts.
Import Mutex.

Section WithObject.
Context {U : Type}.
Implicit Types (i : InvariantMutex U) (w : world U) (c : U → call U).

Ltac run_method :=
  unfold invoke, Lock, Unlock, RLock, RUnlock, bind, ret, checkIfEnabled,
    call_func, rw_Lock, rw_Unlock, rw_RLock, rw_RUnlock, panic, set_mu,
    emit, set_object, checks;
  simpl.

Ltac cases :=
  repeat (case_match; simpl in *; try done); intros; simplify_eq; simpl;
  rewrite <- ?app_assoc; try done.















(** C6: [NewInvariantMutex(check)] panics with its own message when
    [check] is nil. Otherwise it never blocks; when it returns, it
    returns an unlocked mutex paired with [check], and it has called
    [check] exactly once when the flag is set and not at all when it is
    not; it panics only when the flag is set and [check] panics; and it
    does return when the flag is not set or [check] returns. *)
Theorem NewInvariantMutex_spec (f : func U) w :
  (f = None → NewInvariantMutex f w = Panic "check must be non-nil." w) ∧
  (∀ c, f = Some c →
     (∀ i w', NewInvariantMutex f w = Ret i w' →
        i = {| mu := zeroRWMutex; check := Some c |} ∧
        log w' = log w ++ (if fCheckInvariants w then [EvCheck] else []) ∧
        (if fCheckInvariants w then c (object w) = Returns (object w')
         else object w' = object w)) ∧
     (∀ msg w', NewInvariantMutex f w = Panic msg w' →
        fCheckInvariants w = true ∧ c (object w) = Panics msg ∧
        log w' = log w ++ [EvCheck]) ∧
     NewInvariantMutex f w ≠ Blocked ∧
     (fCheckInvariants w = false ∨ (∃ u, c (object w) = Returns u) →
      ∃ i w', NewInvariantMutex f w = Ret i w')).
Proof.
  split.
  - by intros ->.
  - intros c ->. unfold NewInvariantMutex. run_method. split_and!.
    + intros i w'. cases. by rewrite app_nil_r.
    + intros msg w'. cases.
    + cases.
    + intros [Hf|[u Hu]]; [rewrite Hf|rewrite Hu]; cases; eauto.
Qed.

(** C10: with a nil [check], [NewInvariantMutex] panics with its own
    message whether the flag is set or not; it returns no mutex, and the
    world is as it was: nothing has been called. *)
Theorem NewInvariantMutex_nil_panics (flag : bool) (o : U) (l : list event) :
  let w := {| fCheckInvariants := flag; object := o; log := l |} in
  NewInvariantMutex None w = Panic "check must be non-nil." w ∧
  ∀ i w', NewInvariantMutex None w ≠ Ret i w'.
Proof. done. Qed.

End WithObject.

(** ** The example of the documentation *)


Lemma NewInvariantMutex_spec_witness :
  let w := start true newMyStruct in
  ∃ i w', NewInvariantMutex (Some checkInvariants) w = Ret i w'.
Proof.
  intros w.
  destruct (NewInvariantMutex_spec (Some checkInvariants) w) as (_ & H).
  destruct (H checkInvariants eq_refl) as (_ & _ & _ & Hret).
  apply Hret. right. exists newMyStruct. reflexivity.
Defined.

Lemma NewInvariantMutex_nil_panics_witness :
  NewInvariantMutex None (start false newMyStruct)
  = Panic "check must be non-nil." (start false newMyStruct).
Proof.
  destruct (NewInvariantMutex_nil_panics false newMyStruct []) as (H & _).
  exact H.
Defined.

(** Scenario: the invariant is broken inside the critical section; the
    next [Unlock] panics inside [check] and the mutex stays locked. *)
Example broken_invariant_panics :
  let i := {| mu := {| writer := true; readers := 0 |};
              check := Some checkInvariants |} in
  let w := start true {| currentGeneration := 1; nextGeneration := 3 |} in
  Unlock i w
  = Panic "nextGeneration != currentGeneration + 1"
      {| fCheckInvariants := true;
         object := {| currentGeneration := 1; nextGeneration := 3 |};
         log := [EvCheck] |}.
Proof. reflexivity. Qed.

(** ** More about the invariant mutex *)

Section More.
Context {U : Type}.
Implicit Types (i : InvariantMutex U) (w : world U) (c : U → call U).

Ltac run_all :=
  unfold critical, modify, invoke, Lock, Unlock, RLock, RUnlock, bind, ret,
    checkIfEnabled, call_func, rw_Lock, rw_Unlock, rw_RLock, rw_RUnlock,
    panic, set_mu, emit, set_object, checks, strip, map_result;
  simpl.

Ltac split_cases :=
  repeat (case_match; simpl in *; try done); intros; simplify_eq; simpl;
  rewrite <- ?app_assoc; try done.

(** X8: a critical section on an unlocked mutex whose check passes
    before and after the assignments: [Lock], the assignments, [Unlock]
    return, the mutex is unlocked again, the object is as assigned, and
    the check function was called twice when the flag is set, between
    the acquire and the release, and not at all otherwise. *)
Theorem critical_section_round_trip i c w body :
  check i = Some c → mu i = zeroRWMutex →
  (fCheckInvariants w = true →
   c (object w) = Returns (object w) ∧
   c (body (object w)) = Returns (body (object w))) →
  let hook := if fCheckInvariants w then [EvCheck] else [] in
  ∃ w', critical body i w = Ret i w' ∧
        object w' = body (object w) ∧
        fCheckInvariants w' = fCheckInvariants w ∧
        log w' = log w ++ [EvLock] ++ hook ++ hook ++ [EvUnlock].
Proof.
  destruct i as [m f]. simpl. intros -> -> Hc.
  run_all. destruct (fCheckInvariants w) eqn:Hf; simpl.
  - destruct (Hc eq_refl) as [H1 H2]. rewrite H1. simpl. rewrite H2. simpl.
    eexists. split; [done|]. simpl. by rewrite <- !app_assoc.
  - eexists. split; [done|]. simpl. by rewrite <- !app_assoc.
Qed.

(** X9: a critical section whose assignments break the invariant: with
    the flag set it panics with the message of the check function,
    inside [Unlock], after the assignments and before the release of
    the underlying mutex; without the flag it returns and the violation
    goes unnoticed. *)
Theorem broken_invariant_stops_before_release i c w body msg :
  check i = Some c → mu i = zeroRWMutex →
  c (object w) = Returns (object w) →
  c (body (object w)) = Panics msg →
  ∃ w', object w' = body (object w) ∧
        if fCheckInvariants w
        then critical body i w = Panic msg w' ∧
             log w' = log w ++ [EvLock; EvCheck; EvCheck]
        else critical body i w = Ret i w' ∧
             log w' = log w ++ [EvLock; EvUnlock].
Proof.
  destruct i as [m f]. simpl. intros -> -> H1 H2.
  run_all. destruct (fCheckInvariants w) eqn:Hf; simpl.
  - rewrite H1. simpl. rewrite H2. simpl.
    eexists. split; [|split; [done|]]; simpl; [done|].
    by rewrite <- !app_assoc.
  - eexists. split; [|split; [done|]]; simpl; [done|].
    by rewrite <- !app_assoc.
Qed.

(** X10: a mutex that was not made by [NewInvariantMutex] has a nil
    check function. With the flag set none of its methods returns: an
    acquire on the unlocked mutex panics after it has acquired the
    underlying mutex, a release panics before it releases. Without the
    flag the only panics are those of [sync.RWMutex] itself. *)
Theorem nil_check_mutex i w :
  check i = None →
  (fCheckInvariants w = true →
   (∀ m i' w', invoke m i w ≠ Ret i' w') ∧
   (mu i = zeroRWMutex →
    Lock i w = Panic nil_dereference (emit EvLock w) ∧
    RLock i w = Panic nil_dereference (emit EvRLock w)) ∧
   Unlock i w = Panic nil_dereference w ∧
   RUnlock i w = Panic nil_dereference w) ∧
  (fCheckInvariants w = false →
   ∀ m msg w', invoke m i w = Panic msg w' →
               w' = w ∧
               (msg = "sync: Unlock of unlocked RWMutex" ∨
                msg = "sync: RUnlock of unlocked RWMutex")).
Proof.
  destruct i as [m f]. simpl. intros ->. split.
  - intros Hf. split_and!.
    + intros [] i' w'; run_all; rewrite Hf; split_cases.
    + intros ->. run_all. by rewrite Hf.
    + run_all. by rewrite Hf.
    + run_all. by rewrite Hf.
  - intros Hf [] msg w'; run_all; rewrite Hf; split_cases; auto.
Qed.

Lemma invoke_counts m i c w i' w' :
  check i = Some c → invoke m i w = Ret i' w' →
  check i' = Some c ∧ fCheckInvariants w' = fCheckInvariants w ∧
  checks w' = (checks w + (if fCheckInvariants w then 1 else 0))%nat.
Proof.
  intros Hc. destruct m; run_all; rewrite Hc; split_cases.
  all: split_and!; try done.
  all: rewrite ?filter_app, ?length_app; simpl; lia.
Qed.

(** X11: in a sequence of methods of a mutex with a check function that
    returns, each method has called the check function exactly once
    when the flag is set and never when it is not; the flag does not
    change and the mutex keeps its check function. *)
Theorem one_check_per_method ms i c w i' w' :
  check i = Some c → invoke_all ms i w = Ret i' w' →
  checks w' = (checks w + (if fCheckInvariants w then length ms else 0))%nat ∧
  fCheckInvariants w' = fCheckInvariants w ∧ check i' = Some c.
Proof.
  revert i w. induction ms as [|m ms IH]; intros i w Hc H; simpl in H.
  - unfold ret in H. simplify_eq. split_and!; try done.
    destruct (fCheckInvariants w'); simpl; lia.
  - unfold bind in H. destruct (invoke m i w) as [i1 w1| |] eqn:E; try done.
    destruct (invoke_counts _ _ _ _ _ _ Hc E) as (Hc1 & Hf1 & Hn1).
    destruct (IH _ _ Hc1 H) as (Hn & Hf & Hc').
    split_and!; [|congruence|done].
    rewrite Hn, Hn1, Hf1. destruct (fCheckInvariants w); simpl; lia.
Qed.

Lemma invoke_strip m i c w :
  check i = Some c → (∀ u, c u = Returns u) →
  map_result strip (invoke m i w) = invoke m i (strip w).
Proof.
  intros Hc Hpass.
  destruct m; unfold invoke, Lock, Unlock, RLock, RUnlock, bind, ret,
    checkIfEnabled, call_func, rw_Lock, rw_Unlock, rw_RLock, rw_RUnlock,
    panic, set_mu; simpl; rewrite Hc.
  all: repeat (case_match; simpl in *; simplify_eq; try done).
  all: rewrite ?Hpass in *; simplify_eq.
  all: unfold set_object, strip, emit; simpl.
  all: rewrite ?filter_app; simpl; rewrite ?app_nil_r; done.
Qed.

(** X12: a check function that always returns and leaves the object
    alone cannot be observed: whatever a sequence of methods does with
    the flag set (return, panic or block, the mutex and the object it
    ends with), it does the same without the flag, and the logs differ
    by the calls of the check function only. *)
Theorem passing_check_is_unobservable ms i c w :
  check i = Some c → (∀ u, c u = Returns u) →
  map_result strip (invoke_all ms i w) = invoke_all ms i (strip w).
Proof.
  intros Hc Hpass. revert i w Hc.
  induction ms as [|m ms IH]; intros i w Hc; simpl; [done|].
  unfold bind. rewrite <- (invoke_strip m i c w Hc Hpass).
  destruct (invoke m i w) as [i1 w1|msg w1|] eqn:E; simpl; try done.
  apply IH. by destruct (invoke_counts _ _ _ _ _ _ Hc E).
Qed.

End More.

(** ** The further theorems on the example of the documentation *)

Lemma critical_section_round_trip_witness :
  let i := {| mu := zeroRWMutex; check := Some checkInvariants |} in
  let w := start true newMyStruct in
  let body := fun _ : myStruct =>
    {| currentGeneration := 5; nextGeneration := 6 |} in
  ∃ w', critical body i w = Ret i w' ∧
        object w' = {| currentGeneration := 5; nextGeneration := 6 |} ∧
        fCheckInvariants w' = true ∧
        log w' = [EvLock; EvCheck; EvCheck; EvUnlock].
Proof.
  intros i w body.
  apply (critical_section_round_trip i checkInvariants w body).
  - reflexivity.
  - reflexivity.
  - intros _. split; reflexivity.
Defined.

Lemma broken_invariant_stops_before_release_witness :
  let i := {| mu := zeroRWMutex; check := Some checkInvariants |} in
  let w := start true newMyStruct in
  let body := fun _ : myStruct =>
    {| currentGeneration := 1; nextGeneration := 3 |} in
  ∃ w', object w' = {| currentGeneration := 1; nextGeneration := 3 |} ∧
        critical body i w
        = Panic "nextGeneration != currentGeneration + 1" w' ∧
        log w' = [EvLock; EvCheck; EvCheck].
Proof.
  intros i w body.
  apply (broken_invariant_stops_before_release i checkInvariants w body
           "nextGeneration != currentGeneration + 1"); reflexivity.
Defined.

Lemma nil_check_mutex_witness :
  let i := {| mu := zeroRWMutex; check := @None (myStruct → call myStruct) |} in
  let w := start true newMyStruct in
  Lock i w = Panic nil_dereference (emit EvLock w) ∧
  Unlock i w = Panic nil_dereference w.
Proof.
  intros i w.
  destruct (nil_check_mutex i w eq_refl) as [H _].
  destruct (H eq_refl) as (_ & Ha & Hu & _).
  destruct (Ha eq_refl) as [Hl _].
  split; [exact Hl|exact Hu].
Defined.

Lemma one_check_per_method_witness :
  let i := {| mu := zeroRWMutex; check := Some checkInvariants |} in
  let w := start true newMyStruct in
  let ms := [mLock; mUnlock; mRLock; mRLock; mRUnlock; mRUnlock] in
  ∃ i' w', invoke_all ms i w = Ret i' w' ∧ checks w' = 6%nat.
Proof.
  intros i w ms. eexists _, _.
  assert (H : invoke_all ms i w = Ret _ _) by (vm_compute; reflexivity).
  split; [exact H|].
  destruct (one_check_per_method ms i checkInvariants w _ _ eq_refl H)
    as (Hn & _ & _).
  exact Hn.
Defined.

Lemma passing_check_is_unobservable_witness :
  let c := fun s : myStruct => Returns s in
  let i := {| mu := zeroRWMutex; check := Some c |} in
  let w := start true newMyStruct in
  let ms := [mLock; mUnlock; mUnlock] in
  (∀ u, c u = Returns u) ∧
  map_result strip (invoke_all ms i w) = invoke_all ms i (strip w).
Proof.
  intros c i w ms.
  assert (Hc : ∀ u, c u = Returns u) by reflexivity.
  split; [exact Hc|].
  exact (passing_check_is_unobservable ms i c w eq_refl Hc).
Defined.

End MutexFacts.

(* ================================================================== *)
(** * Facts about the bundle *)
(* ================================================================== *)

Module BundleFacts.
Import Bundle.

Local Open Scope Z_scope.

(** ** Lists of operations *)

Lemma outstanding_nonneg l : 0 ≤ outstanding l.
Proof. induction l as [|p l IH]; simpl; [lia|]. destruct (exited p); lia. Qed.

Lemma outstanding_app l p :
  outstanding (l ++ [p]) = outstanding l + (if exited p then 0 else 1).
Proof. induction l as [|q l IH]; simpl; [|rewrite IH]; lia. Qed.

Lemma outstanding_insert l i p q :
  l !! i = Some p →
  outstanding (<[i := q]> l)
  = outstanding l - (if exited p then 0 else 1) + (if exited q then 0 else 1).
Proof.
  revert i. induction l as [|x l IH]; intros [|i] H; simpl in *; try done.
  - injection H as ->. lia.
  - rewrite (IH _ H). lia.
Qed.

Lemma outstanding_zero l :
  outstanding l = 0 → ∀ i p, l !! i = Some p → exited p = true.
Proof.
  induction l as [|x l IH]; intros H [|i] p Hp; simpl in *; try done.
  - injection Hp as ->. pose proof (outstanding_nonneg l).
    destruct (exited p); [done | lia].
  - pose proof (outstanding_nonneg l).
    apply (IH ltac:(destruct (exited x); lia) i p Hp).
Qed.

Lemma outstanding_exited l :
  (∀ i p, l !! i = Some p → exited p = true) → outstanding l = 0.
Proof.
  induction l as [|x l IH]; intros H; simpl; [done|].
  rewrite (H 0%nat x eq_refl). rewrite IH; [done|].
  intros i p Hp. apply (H (S i) p Hp).
Qed.

Lemma cancel_other (own id : nat) (c : gset nat) :
  id ≠ own → own ∉ c → own ∉ {[id]} ∪ c.
Proof.
  intros Hne Hc [Hin%elem_of_singleton|Hin]%elem_of_union; [congruence|done].
Qed.

Lemma cancel_own (own : nat) (c : gset nat) : own ∈ {[own]} ∪ c.
Proof. apply elem_of_union_l. by apply elem_of_singleton. Qed.

Lemma cancel_kept (own id : nat) (c : gset nat) : own ∈ c → own ∈ {[id]} ∪ c.
Proof. apply elem_of_union_r. Qed.

Lemma stores_snoc t o :
  stores (t ++ [o])
  = stores t ++ match o with ObsStore i e => [(i, e)] | _ => [] end.
Proof. unfold stores. rewrite omap_app. by destruct o. Qed.

Lemma cancels_snoc t o :
  cancels (t ++ [o])
  = cancels t ++ match o with ObsCancel i => [i] | _ => [] end.
Proof. unfold cancels. rewrite omap_app. by destruct o. Qed.

Lemma before_snoc x y t o : before x y t → before x y (t ++ [o]).
Proof.
  intros (l1 & l2 & l3 & ->). exists l1, l2, (l3 ++ [o]).
  by rewrite <- !app_assoc, <- !app_comm_cons, <- app_assoc.
Qed.

Lemma before_last x y t : x ∈ t → before x y (t ++ [y]).
Proof.
  intros (l1 & l2 & ->)%list_elem_of_split. exists l1, l2, [].
  by rewrite <- app_assoc.
Qed.


(** The cases of a step that has been taken. *)
Ltac step_inv H :=
  unfold step, step_op, step_join in H;
  repeat case_match; simplify_eq;
  repeat match goal with E : decide _ = _ |- _ => clear E end.

Ltac look :=
  repeat match goal with
  | H : <[_ := _]> _ !! _ = Some _ |- _ =>
      apply list_lookup_insert_Some in H as [(? & ? & ?) | (? & H)]; simplify_eq
  | H : (_ ++ [_]) !! _ = Some _ |- _ =>
      apply lookup_snoc_Some in H as [(? & H) | (? & ?)]; simplify_eq
  end.

Ltac unpack :=
  repeat match goal with
  | H : ∃ _, _ |- _ => destruct H
  | H : _ ∧ _ |- _ => destruct H
  end.

(** Every operation inside the function passed to [Do] owns the Once. *)
Ltac owners :=
  repeat match goal with
  | Ho : inv_owner ?s, H : ops ?s !! ?i = Some ?p |- _ =>
      lazymatch goal with
      | _ : errorOnce (b s) = OnceRunning i |- _ => fail
      | _ => pose proof (Ho i p H ltac:(first [reflexivity | assumption]))
      end
  end.

Lemma step_counter parent st s ev s' :
  Inv parent st s → step ev s = Next s' → inv_counter s'.
Proof.
  intros HI H. destruct ev; step_inv H.
  all: destruct HI as [Hc]; unfold inv_counter in *; simpl.
  all: try (rewrite outstanding_app; simpl; lia).
  all: try (erewrite outstanding_insert by eassumption; simpl; lia).
  all: try done.
Qed.

Lemma step_owner parent st s ev s' :
  Inv parent st s → step ev s = Next s' → inv_owner s'.
Proof.
  intros HI H. destruct ev; step_inv H.
  all: destruct HI as [_ Ho]; intros j' q Hq Hin; simpl in *; look; simpl in *.
  all: try done.
  all: try (by eapply Ho).
  all: owners; congruence.
Qed.

Lemma step_failed parent st s ev s' :
  Inv parent st s → step ev s = Next s' → inv_failed s'.
Proof.
  intros HI H. destruct ev; step_inv H.
  all: destruct HI as [_ Ho _ _ _ _ _ _ Hf]; intros j' q e' Hq Hin; simpl in *.
  all: look; simpl in *.
  all: try done.
  all: try (by eapply Hf).
  all: try (pose proof (Hf _ _ _ Hq Hin); congruence).
Qed.

Lemma insert_lookup_cases (l : list pc) i x0 x j y :
  l !! i = Some x0 → l !! j = Some y →
  ∃ y', <[i := x]> l !! j = Some y' ∧
        ((i = j ∧ y' = x ∧ y = x0) ∨ (i ≠ j ∧ y' = y)).
Proof.
  intros Hi Hj. destruct (decide (i = j)) as [->|Hne].
  - exists x. split; [|left; split_and!; congruence].
    apply list_lookup_insert_eq. by eapply lookup_lt_Some.
  - exists y. split; [|by right]. by rewrite list_lookup_insert_ne.
Qed.

(** The entry [j] of the table after entry [i] has been replaced. *)
Ltac relook Hj :=
  match goal with
  | Hi : ops ?s !! ?i = Some _ |- context [<[?i := ?x]> (ops ?s)] =>
      let y := fresh "y" in
      let Hy := fresh "Hy" in
      destruct (insert_lookup_cases _ _ _ x _ _ Hi Hj)
        as (y & Hy & [(? & ? & ?)|(? & ?)]); simplify_eq
  end.

Ltac slots :=
  unfold untouched, stored, cancelled_by in *; simpl in *;
  rewrite ?stores_snoc, ?cancels_snoc; simpl; rewrite ?app_nil_r; unpack.

Ltac slot_solve :=
  slots; split_and!; try done; try congruence;
  try (repeat match goal with
       | H : stores _ = _ |- _ => rewrite H; clear H
       | H : cancels _ = _ |- _ => rewrite H; clear H
       end; done);
  eauto using cancel_other, cancel_own, cancel_kept.

Lemma step_fresh parent st s ev s' :
  Inv parent st s → step ev s = Next s' → inv_fresh s'.
Proof.
  intros HI H. destruct ev; step_inv H.
  all: destruct HI as [_ Ho Hfr Hru Hst Hca Hex Hdo Hfa]; intros E; simpl in *.
  all: try done.
  all: try (by apply Hfr).
  all: owners; try congruence.
  all: specialize (Hfr E); slot_solve.
Qed.

Lemma step_running parent st s ev s' :
  Inv parent st s → step ev s = Next s' → inv_running s'.
Proof.
  intros HI H. destruct ev; step_inv H.
  all: destruct HI as [_ Ho Hfr Hru Hst Hca Hex Hdo Hfa]; intros k E; simpl in *.
  all: simplify_eq.
  all: try (destruct (Hru _ E) as (p & Hp & Hin)).
  all: try (exists p; split; [|done]; apply lookup_app_l_Some; done).
  all: try done.
  all: try (by eauto).
  all: try (relook Hp; eexists; (split; [eassumption|]); simpl in *; done).
  eexists; split; [apply list_lookup_insert_eq; by eapply lookup_lt_Some | done].
Qed.

Lemma step_store parent st s ev s' :
  Inv parent st s → step ev s = Next s' → inv_store s'.
Proof.
  intros HI H. destruct ev; step_inv H.
  all: destruct HI as [_ Ho Hfr Hru Hst Hca Hex Hdo Hfa]; intros k e Hk; simpl in *.
  all: look.
  all: try (by eapply Hst).
  all: owners; try congruence.
  all: try (specialize (Hst _ _ Hk)); try (specialize (Hfr ltac:(done))).
  all: slot_solve.
Qed.

Lemma step_cancel parent st s ev s' :
  Inv parent st s → step ev s = Next s' → inv_cancel s'.
Proof.
  intros HI H. destruct ev; step_inv H.
  all: destruct HI as [_ Ho Hfr Hru Hst Hca Hex Hdo Hfa]; intros k e Hk; simpl in *.
  all: look.
  all: try (by eapply Hca).
  all: owners; try congruence.
  all: try (specialize (Hca _ _ Hk)); try (specialize (Hst _ _ ltac:(eassumption))).
  all: slot_solve.
Qed.

Lemma step_exit parent st s ev s' :
  Inv parent st s → step ev s = Next s' → inv_exit s'.
Proof.
  intros HI H. destruct ev; step_inv H.
  all: destruct HI as [_ Ho Hfr Hru Hst Hca Hex Hdo Hfa]; intros k e Hk; simpl in *.
  all: look.
  all: try (by eapply Hex).
  all: owners; try congruence.
  all: try (specialize (Hex _ _ Hk)); try (specialize (Hca _ _ ltac:(eassumption))).
  all: slot_solve.
Qed.


Lemma step_done parent st s ev s' :
  Inv parent st s → step ev s = Next s' → inv_done s'.
Proof.
  intros HI H. destruct ev; step_inv H.
  all: destruct HI as [_ Ho Hfr Hru Hst Hca Hex Hdo Hfa]; intros E; simpl in *.
  all: owners; try congruence.
  all: try (destruct (Hdo E) as (k & e & p & Hk & Hp & Hc)).
  all: try (exists k, e, p; split_and!; [by apply lookup_app_l_Some|done|slot_solve]).
  all: try (exists k, e, p; split_and!; [done|done|slot_solve]).
  all: try (relook Hk; simpl in *;
            eexists _, _, _; (split; [eassumption|]);
            (split; [simpl; eassumption|slot_solve])).
  specialize (Hex _ _ H0).
  eexists i, err, _; split_and!;
    [apply list_lookup_insert_eq; by eapply lookup_lt_Some|done|slot_solve].
Qed.

Lemma step_ctx parent st s ev s' :
  Inv parent st s → step ev s = Next s' → inv_ctx parent st s'.
Proof.
  intros HI H. destruct ev; step_inv H.
  all: by destruct HI as [_ _ _ _ _ _ _ _ _ Hc].
Qed.

(** A goroutine that has returned stays so, and the table only grows. *)
Lemma step_exited ev s s' i e :
  step ev s = Next s' → ops s !! i = Some (pcExit e) → ops s' !! i = Some (pcExit e).
Proof.
  intros H Hi. destruct ev; step_inv H; simpl; try done.
  all: try (by apply lookup_app_l_Some).
  all: rewrite list_lookup_insert_ne; [done|congruence].
Qed.

Lemma step_length ev s s' :
  step ev s = Next s' → (length (ops s) ≤ length (ops s'))%nat.
Proof.
  intros H. destruct ev; step_inv H; simpl; rewrite ?length_insert, ?length_app; lia.
Qed.

Lemma exited_pcExit p : exited p = true → ∃ e, p = pcExit e.
Proof. destruct p; try done. eauto. Qed.

Lemma released_lookup v (l : list jpc) k q :
  released v l !! k = Some q →
  ∃ q0, l !! k = Some q0 ∧ (q = q0 ∨ q = wake q0).
Proof.
  unfold released. destruct (_ || _); [eauto|].
  rewrite list_lookup_fmap. destruct (l !! k) as [q0|]; simpl; [|done].
  intros [= <-]. eauto.
Qed.

Lemma join_ok_wake o q : join_ok o q → join_ok o (wake q).
Proof. by destruct q. Qed.

Local Arguments join_ok : simpl never.

Lemma step_joins parent st s ev s' :
  Inv parent st s → step ev s = Next s' → inv_joins s'.
Proof.
  intros HI H k q Hk. change (join_ok (ops s') q).
  assert (Hold : ∀ q, joins s !! k = Some q → join_ok (ops s') q).
  { intros q' Hq'. pose proof (Inv_joins _ _ _ HI _ _ Hq') as Hj.
    destruct q'; unfold join_ok; simpl in *.
    1-3: pose proof (step_length _ _ _ H); lia.
    all: intros i Hi; destruct (Hj i Hi) as [e He]; exists e.
    all: by eapply step_exited. }
  assert (Hzero : waitGroup (b s) = 0 → ∀ n, (n ≤ length (ops s))%nat →
                  join_ok (ops s) (jRead n)).
  { intros Hz n Hn i Hi. simpl in Hn.
    destruct (lookup_lt_is_Some_2 (ops s) i ltac:(lia)) as [p Hp].
    destruct (exited_pcExit p) as [e ->]; [|by exists e].
    eapply outstanding_zero; [|done]. by rewrite <- (Inv_counter _ _ _ HI). }
  destruct ev; step_inv H; simpl in *.
  all: try (by apply Hold).
  all: try (apply released_lookup in Hk as (q0 & Hk & [->| ->]);
            [by apply Hold|by apply join_ok_wake, Hold]).
  all: look; try (by apply Hold).
  all: try (unfold join_ok; simpl; lia).
  all: try (match goal with
            | Hj : joins _ !! _ = Some _ |- _ =>
                exact (Inv_joins _ _ _ HI _ _ Hj)
            end).
  all: apply Hzero;
    [|match goal with
      | Hj : joins _ !! _ = Some _ |- _ => exact (Inv_joins _ _ _ HI _ _ Hj)
      end].
  - by apply Z.eqb_eq.
  - match goal with
    | E : _ && _ = true |- _ => apply andb_true_iff in E as [E _]
    end. by apply Z.eqb_eq.
Qed.

Lemma step_firstError ev s s' e :
  step ev s = Next s' → firstError (b s) = Some e →
  inv_store s → firstError (b s') = Some e.
Proof.
  intros H He Hst. destruct ev; step_inv H; simpl; try done.
  destruct (Hst _ _ ltac:(eassumption)) as [? _]. congruence.
Qed.

Lemma step_surfaced parent st s ev s' :
  Inv parent st s → step ev s = Next s' → inv_surfaced s'.
Proof.
  intros HI H k e Hk.
  assert (Hold : ObsJoin k (Some e) ∈ tr s → firstError (b s') = Some e).
  { intros Hin. eapply step_firstError; [done| |by destruct HI].
    by eapply (Inv_surfaced _ _ _ HI). }
  destruct ev; step_inv H; simpl in *; try (by apply Hold).
  all: apply elem_of_app in Hk as [Hk|Hk%list_elem_of_singleton]; try done.
  all: try (by apply Hold).
  congruence.
Qed.

Lemma step_order parent st s ev s' :
  Inv parent st s → step ev s = Next s' → inv_order s'.
Proof.
  intros HI H k Hk.
  pose proof (Inv_order _ _ _ HI k) as Hold.
  destruct ev; step_inv H; simpl in *; try (by apply Hold).
  all: apply elem_of_app in Hk as [Hk|Hk%list_elem_of_singleton]; simplify_eq.
  all: try (destruct (Hold Hk) as [e He]; exists e; by apply before_snoc).
  match goal with
  | H : ops s !! ?i = Some (pcCancel ?err) |- _ =>
      destruct (Inv_cancel _ _ _ HI _ _ H) as (_ & Hs & _);
      exists err; apply before_last;
      assert (Hin : (i, err) ∈ stores (tr s)) by (rewrite Hs; set_solver)
  end.
  unfold stores in Hin. apply list_elem_of_omap in Hin as (o & Ho & Heq).
  destruct o; by simplify_eq.
Qed.

Lemma waiters_pos (l : list jpc) j n :
  l !! j = Some (jSleep n) → waiters l ≠ 0%nat.
Proof.
  unfold waiters. intros Hj Hz. apply length_zero_iff_nil in Hz.
  assert (Hin : jSleep n ∈ filter (λ p, asleep p = true) l).
  { apply list_elem_of_filter. split; [done|]. by eapply list_elem_of_lookup_2. }
  rewrite Hz in Hin. by apply elem_of_nil in Hin.
Qed.

Lemma waiters_sleeper (l : list jpc) :
  waiters l ≠ 0%nat → ∃ j n, l !! j = Some (jSleep n).
Proof.
  unfold waiters. intros Hw.
  destruct (filter (λ p, asleep p = true) l) as [|q l'] eqn:E; [done|].
  assert (Hin : q ∈ filter (λ p, asleep p = true) l) by (rewrite E; left).
  apply list_elem_of_filter in Hin as [Hq Hin].
  apply list_elem_of_lookup in Hin as [j Hj].
  destruct q; try done. eauto.
Qed.

(** [Add] never finds a waiter at a counter of zero: its own misuse
    check does not fire. *)
Lemma Add_passes parent st s f :
  Inv parent st s →
  step (CallAdd f) s
  = Next (set_ops (ops s ++ [pcGo f]) (set_b (wg_add 1 (b s)) s)).
Proof.
  intros HI. simpl.
  destruct (waiters (joins s) =? 0)%nat eqn:Hw; [done|]. simpl.
  apply Nat.eqb_neq, waiters_sleeper in Hw as (j & n & Hj).
  pose proof (Inv_sleepers _ _ _ HI _ _ Hj).
  destruct (waitGroup (b s) + 1 =? 1) eqn:E; [|done].
  apply Z.eqb_eq in E. lia.
Qed.

Lemma released_sleeper v (l : list jpc) j n :
  released v l !! j = Some (jSleep n) → 1 ≤ v.
Proof.
  unfold released. destruct (0 <? v) eqn:Hv; simpl.
  - intros _. apply Z.ltb_lt in Hv. lia.
  - destruct (waiters l =? 0)%nat eqn:Hw.
    + intros Hj. apply Nat.eqb_eq in Hw. by destruct (waiters_pos _ _ _ Hj).
    + rewrite list_lookup_fmap. destruct (l !! j) as [[]|]; simpl; done.
Qed.

Lemma step_sleepers parent st s ev s' :
  Inv parent st s → step ev s = Next s' → inv_sleepers s'.
Proof.
  intros HI H k m Hk.
  pose proof (Inv_sleepers _ _ _ HI k m) as Hold.
  assert (Hpos : 0 ≤ waitGroup (b s)).
  { rewrite (Inv_counter _ _ _ HI). apply outstanding_nonneg. }
  destruct ev; step_inv H; simpl in *.
  all: try (by apply Hold).
  all: try (apply released_sleeper in Hk; lia).
  all: look; try (by apply Hold); try (specialize (Hold ltac:(done))); lia.
Qed.

Lemma step_Inv parent st s ev s' :
  Inv parent st s → step ev s = Next s' → Inv parent st s'.
Proof.
  intros HI H. split.
  - by eapply step_counter.
  - by eapply step_owner.
  - by eapply step_fresh.
  - by eapply step_running.
  - by eapply step_store.
  - by eapply step_cancel.
  - by eapply step_exit.
  - by eapply step_done.
  - by eapply step_failed.
  - by eapply step_ctx.
  - by eapply step_joins.
  - by eapply step_surfaced.
  - by eapply step_order.
  - by eapply step_sleepers.
Qed.

Lemma init_Inv parent st : store_ok st parent → Inv parent st (init parent st).
Proof.
  intros [Hs _]. split; try done.
  - intros _. split_and!; try done. simpl.
    intros Hin%Hs. lia.
  - intros j e Hin. simpl in Hin. by apply elem_of_nil in Hin.
  - intros i Hin. simpl in Hin. by apply elem_of_nil in Hin.
Qed.

Lemma reachable_Inv parent st s : reachable parent st s → Inv parent st s.
Proof.
  induction 1 as [|s ev s' _ IH H]; [by apply init_Inv | by eapply step_Inv].
Qed.

Lemma run_reachable parent st evs s s' :
  reachable parent st s → run evs s = Next s' → reachable parent st s'.
Proof.
  revert s. induction evs as [|ev evs IH]; intros s Hr H; simpl in H.
  - by simplify_eq.
  - destruct (step ev s) as [s1| |] eqn:E; try done.
    eapply IH; [|done]. by eapply reach_step.
Qed.


(** ** Consequences of the invariant *)

(** The slot is empty and nothing was cancelled, or one operation [i]
    that returned the failure [e] has stored it, and perhaps cancelled. *)
Lemma slot_cases parent st s :
  Inv parent st s →
  untouched s ∨
  ∃ i e p, ops s !! i = Some p ∧ failure p = Some e ∧
           (stored s i e ∨ cancelled_by s i e).
Proof.
  intros HI. destruct (errorOnce (b s)) as [|i|] eqn:E.
  - left. by apply (Inv_fresh _ _ _ HI).
  - destruct (Inv_running _ _ _ HI _ E) as (p & Hp & Hin).
    destruct p; try done.
    + left. by eapply (Inv_store _ _ _ HI).
    + right. eexists i, err, _. split_and!; [done..|].
      left. by eapply (Inv_cancel _ _ _ HI).
    + right. eexists i, err, _. split_and!; [done..|].
      right. by eapply (Inv_exit _ _ _ HI).
  - destruct (Inv_done _ _ _ HI E) as (i & e & p & Hp & Hpast & Hc).
    right. exists i, e, p. split_and!; [done| |by right].
    by destruct p.
Qed.

Lemma untouched_or_set parent st s :
  Inv parent st s →
  match firstError (b s) with
  | None => stores (tr s) = [] ∧ cancels (tr s) = [] ∧
            cancel (b s) ∉ cancelled (ctxs s)
  | Some e => ∃ i p, stores (tr s) = [(i, e)] ∧ ops s !! i = Some p ∧
                     failure p = Some e
  end.
Proof.
  intros HI. destruct (slot_cases _ _ _ HI) as [H|(i & e & p & Hp & Hf & [H|H])].
  - destruct H as (-> & ? & ? & ?). done.
  - destruct H as (-> & ? & ? & ?). eauto.
  - destruct H as (-> & ? & ? & ?). eauto.
Qed.

(** C1: for every bundle made by [NewBundle], [Join], once its
    [waitGroup.Wait()] has returned, returns the contents of the
    first-error slot. That is success exactly when no operation has
    stored a failure, and otherwise the one failure that was stored, by
    the one operation that stored one, which returned that failure. All
    failures that calls of [Join] have returned are the same. *)
Theorem Join_returns_first_error parent st s j n :
  reachable parent st s →
  joins s !! j = Some (jRead n) →
  ∃ s', step (StepJoin j) s = Next s' ∧
        join_result j s' = Some (firstError (b s)) ∧
        match firstError (b s) with
        | None => stores (tr s) = []
        | Some e => ∃ i p, stores (tr s) = [(i, e)] ∧ ops s !! i = Some p ∧
                           failure p = Some e
        end ∧
        ∀ j1 j2 e1 e2,
          ObsJoin j1 (Some e1) ∈ tr s' → ObsJoin j2 (Some e2) ∈ tr s' → e1 = e2.
Proof.
  intros Hr Hj.
  assert (Hs : step (StepJoin j) s
               = Next (set_join j (jReturned n (firstError (b s)))
                         (record (ObsJoin j (firstError (b s))) s))).
  { simpl. unfold step_join. by rewrite Hj. }
  eexists. split; [exact Hs|].
  assert (Hr' : reachable parent st
    (set_join j (jReturned n (firstError (b s)))
       (record (ObsJoin j (firstError (b s))) s))).
  { by eapply reach_step. }
  apply reachable_Inv in Hr, Hr'. split_and!.
  - unfold join_result; simpl. rewrite list_lookup_insert_eq; [done|].
    by eapply lookup_lt_Some.
  - pose proof (untouched_or_set _ _ _ Hr) as H.
    destruct (firstError (b s)); [done|]. by destruct H.
  - intros j1 j2 e1 e2 H1 H2.
    pose proof (Inv_surfaced _ _ _ Hr' _ _ H1).
    pose proof (Inv_surfaced _ _ _ Hr' _ _ H2). congruence.
Qed.

(** C2: for every bundle made by [NewBundle], at every moment at most
    one assignment to [b.firstError] and at most one call of [b.cancel]
    have been executed, the call by the operation that made the
    assignment, and the slot holds what was assigned: the failure that
    this operation returned. The cancel function of the bundle has been
    called exactly when the trace records a call, and the recorded call
    is the step that cancels the context: before it the bundle's cancel
    function had not been called, after it the context is cancelled. An
    operation that fails after the Once is done passes [Do] without
    touching the bundle, the contexts or the trace. Once any failing
    operation is past [Do], exactly one assignment and exactly one call
    have been executed, and the context is cancelled. *)
Theorem first_error_stored_once parent st s :
  reachable parent st s →
  (length (stores (tr s)) ≤ 1)%nat ∧
  (length (cancels (tr s)) ≤ 1)%nat ∧
  (∀ i, i ∈ cancels (tr s) → ∃ e, stores (tr s) = [(i, e)]) ∧
  (∀ i e, (i, e) ∈ stores (tr s) →
          firstError (b s) = Some e ∧
          ∃ p, ops s !! i = Some p ∧ failure p = Some e) ∧
  (cancel (b s) ∈ cancelled (ctxs s) ↔ cancels (tr s) ≠ []) ∧
  (cancels (tr s) ≠ [] → Err (cancelled (ctxs s)) (context (b s)) = true) ∧
  (∀ i e, ops s !! i = Some (pcCancel e) →
          cancels (tr s) = [] ∧
          (cancel (b s) ∉ cancelled (ctxs s)) ∧
          ∃ s', step (StepOp i) s = Next s' ∧
                cancels (tr s') = [i] ∧
                cancelled (ctxs s') = {[cancel (b s)]} ∪ cancelled (ctxs s) ∧
                Err (cancelled (ctxs s')) (context (b s')) = true) ∧
  (∀ k e, ops s !! k = Some (pcOnceDo e) → errorOnce (b s) = OnceDone →
          ∃ s', step (StepOp k) s = Next s' ∧
                b s' = b s ∧ ctxs s' = ctxs s ∧ tr s' = tr s ∧
                ops s' !! k = Some (pcDone (Some e))) ∧
  (∀ k p e, ops s !! k = Some p → past_once p = Some e →
            ∃ i e1, stores (tr s) = [(i, e1)] ∧ cancels (tr s) = [i] ∧
                    firstError (b s) = Some e1 ∧
                    cancel (b s) ∈ cancelled (ctxs s) ∧
                    Err (cancelled (ctxs s)) (context (b s)) = true).
Proof.
  intros HI%reachable_Inv.
  assert (Hc : untouched s ∨ ∃ i e, stored s i e ∨ cancelled_by s i e).
  { destruct (slot_cases _ _ _ HI) as [H|(i & e & p & _ & _ & H)]; eauto. }
  assert (Hown : cancel (b s) ∈ cancelled (ctxs s) ↔ cancels (tr s) ≠ []).
  { destruct Hc as [H|(i & e & [H|H])]; destruct H as (_ & _ & -> & ?);
      split; done. }
  assert (Herr : cancel (b s) ∈ cancelled (ctxs s) →
                 Err (cancelled (ctxs s)) (context (b s)) = true).
  { intros Hin. destruct (Inv_ctx _ _ _ HI) as [Hctx Hid]. rewrite Hctx. simpl.
    rewrite Hid in Hin. by rewrite (bool_decide_eq_true_2 _ Hin). }
  split_and!.
  - destruct Hc as [H|(i & e & [H|H])]; destruct H as (_ & -> & _); simpl; lia.
  - destruct Hc as [H|(i & e & [H|H])]; destruct H as (_ & _ & -> & _); simpl; lia.
  - intros k Hk.
    destruct Hc as [H|(i & e & [H|H])]; destruct H as (_ & Hs & Hk' & _).
    all: rewrite Hk' in Hk.
    1,2: by apply elem_of_nil in Hk.
    apply list_elem_of_singleton in Hk as ->. eauto.
  - intros k e Hk. pose proof (untouched_or_set _ _ _ HI) as H.
    destruct (firstError (b s)) as [e'|].
    + destruct H as (i & p & Hs & Hp & Hf). rewrite Hs in Hk.
      apply list_elem_of_singleton in Hk. simplify_eq. eauto.
    + destruct H as (Hs & _). rewrite Hs in Hk. by apply elem_of_nil in Hk.
  - done.
  - intros Hne. by apply Herr, Hown.
  - intros i e Hi.
    destruct (Inv_cancel _ _ _ HI _ _ Hi) as (_ & _ & Hca & Hnot).
    split_and!; [done..|]. eexists. split.
    { simpl. unfold step_op. by rewrite Hi. }
    simpl. rewrite cancels_snoc, Hca. split_and!; [done..|].
    destruct (Inv_ctx _ _ _ HI) as [Hctx Hid]. rewrite Hctx, Hid. simpl.
    rewrite bool_decide_eq_true_2; [done|]. apply cancel_own.
  - intros k e Hk E. eexists. split.
    { simpl. unfold step_op. by rewrite Hk, E. }
    simpl. split_and!; try done.
    apply list_lookup_insert_eq. by eapply lookup_lt_Some.
  - intros k p e Hk Hp.
    pose proof (Inv_failed _ _ _ HI _ _ _ Hk Hp) as E.
    destruct (Inv_done _ _ _ HI E) as (i & e1 & _ & _ & _ & Hf & Hs & Hca & Hin).
    exists i, e1. split_and!; try done. by apply Herr.
Qed.

Lemma released_wakes v (l : list jpc) j n :
  v = 0 → l !! j = Some (jSleep n) → released v l !! j = Some (jWoken n).
Proof.
  intros -> Hj. unfold released. simpl.
  destruct (waiters l =? 0)%nat eqn:Hw.
  - apply Nat.eqb_eq in Hw. by destruct (waiters_pos _ _ _ Hj).
  - by rewrite list_lookup_fmap, Hj.
Qed.

(** C3: for every bundle made by [NewBundle], the counter of the wait
    group is the number of calls of [Add] whose goroutine has not
    returned; [Add] counts the call before its [go] statement. While a
    goroutine has not returned, a call of [Join] does not get past
    [Wait]: one that arrives goes to sleep as a waiter, one that sleeps
    stays blocked, and one that was released before the wait group was
    used again panics. [Wait] lets [Join] through only when all
    goroutines have returned; the [Done] that brings the counter to
    zero releases the sleeping calls; and when [Wait] has returned,
    every call of [Add] made before the call of [Join] has run its
    goroutine to the end. *)
Theorem Join_waits_for_operations parent st s :
  reachable parent st s →
  waitGroup (b s) = outstanding (ops s) ∧
  (∀ f, step (CallAdd f) s
        = Next (set_ops (ops s ++ [pcGo f]) (set_b (wg_add 1 (b s)) s))) ∧
  (∀ j n i p, ops s !! i = Some p → exited p = false →
     (joins s !! j = Some (jWait n) →
      step (StepJoin j) s = Next (set_join j (jSleep n) s)) ∧
     (joins s !! j = Some (jSleep n) → step (StepJoin j) s = Stuck) ∧
     (joins s !! j = Some (jWoken n) →
      step (StepJoin j) s
      = Crash "sync: WaitGroup is reused before previous Wait has returned")) ∧
  (∀ j n s', step (StepJoin j) s = Next s' →
             joins s' !! j = Some (jRead n) → all_exited s) ∧
  (∀ i err, ops s !! i = Some (pcDone err) → waitGroup (b s) = 1 →
            ∃ s', step (StepOp i) s = Next s' ∧ waitGroup (b s') = 0 ∧
                  ∀ j n, joins s !! j = Some (jSleep n) →
                         joins s' !! j = Some (jWoken n)) ∧
  (∀ j n, joins s !! j = Some (jRead n) ∨
          (∃ r, joins s !! j = Some (jReturned n r)) →
          ∀ i, (i < n)%nat → ∃ e, ops s !! i = Some (pcExit e)).
Proof.
  intros HI%reachable_Inv.
  assert (Hbusy : ∀ i p, ops s !! i = Some p → exited p = false →
                         (waitGroup (b s) =? 0) = false).
  { intros i p Hi Hp. apply Z.eqb_neq. intros E.
    rewrite (Inv_counter _ _ _ HI) in E.
    pose proof (outstanding_zero _ E _ _ Hi). congruence. }
  split_and!.
  - apply (Inv_counter _ _ _ HI).
  - intros f. by eapply Add_passes.
  - intros j n i p Hi Hp. pose proof (Hbusy _ _ Hi Hp) as E. split_and!.
    + intros Hj. simpl. unfold step_join. by rewrite Hj, E.
    + intros Hj. simpl. unfold step_join. by rewrite Hj.
    + intros Hj. simpl. unfold step_join. by rewrite Hj, E.
  - intros j n s' H Hj' i p Hi.
    destruct (exited p) eqn:Hp; [done|].
    pose proof (Hbusy _ _ Hi Hp) as E.
    simpl in H. unfold step_join in H.
    destruct (joins s !! j) as [[m|m|m|m|m r]|] eqn:Hj; try done.
    + rewrite E in H. simplify_eq. simpl in Hj'.
      rewrite list_lookup_insert_eq in Hj' by (by eapply lookup_lt_Some). done.
    + by rewrite E in H.
    + simplify_eq. simpl in Hj'.
      rewrite list_lookup_insert_eq in Hj' by (by eapply lookup_lt_Some). done.
  - intros i err Hi Hone. eexists. split.
    { simpl. unfold step_op. rewrite Hi, Hone. simpl. done. }
    simpl. split; [lia|]. intros j n Hj. by apply released_wakes.
  - intros j n [Hj|[r Hj]] i Hi.
    all: by apply (Inv_joins _ _ _ HI _ _ Hj).
Qed.

(** C4: for every bundle made by [NewBundle], every call of [b.cancel]
    comes after the assignment to [b.firstError] by the same operation;
    and while the slot is empty the bundle has not called its cancel
    function, which nobody else can call. *)
Theorem store_before_cancel parent st s :
  reachable parent st s →
  (∀ i, ObsCancel i ∈ tr s →
        ∃ e, before (ObsStore i e) (ObsCancel i) (tr s)) ∧
  (firstError (b s) = None →
   cancels (tr s) = [] ∧ cancel (b s) ∉ cancelled (ctxs s)) ∧
  (∀ i e, ops s !! i = Some (pcCancel e) → firstError (b s) = Some e).
Proof.
  intros HI%reachable_Inv. split_and!.
  - apply (Inv_order _ _ _ HI).
  - intros Hn. pose proof (untouched_or_set _ _ _ HI) as H.
    rewrite Hn in H. by destruct H as (_ & ? & ?).
  - intros i e Hi. by destruct (Inv_cancel _ _ _ HI _ _ Hi).
Qed.

Lemma own_cancelled_iff parent st s :
  Inv parent st s →
  cancel (b s) ∈ cancelled (ctxs s) ↔ cancels (tr s) ≠ [].
Proof.
  intros HI.
  destruct (slot_cases _ _ _ HI) as [H|(i & e & p & _ & _ & [H|H])].
  all: destruct H as (_ & _ & -> & Hc); split; done.
Qed.

(** C7: [NewBundle(nil)] is [NewBundle(context.Background())]: the same
    bundle, with the same reachable states. The context of such a bundle
    is derived from [Background], and it is cancelled exactly when the
    bundle itself has called [b.cancel]. *)
Theorem NewBundle_nil_parent st s :
  reachable None st s →
  NewBundle None st = NewBundle (Some Background) st ∧
  reachable (Some Background) st s ∧
  context (b s) = Derived (cancel (b s)) Background ∧
  (Err (cancelled (ctxs s)) (context (b s)) = true ↔ cancels (tr s) ≠ []).
Proof.
  intros Hr. split_and!.
  - done.
  - induction Hr as [Hok|s ev s' _ IH H].
    + by apply (reach_init (Some Background)).
    + by eapply reach_step.
  - apply reachable_Inv in Hr. destruct (Inv_ctx _ _ _ Hr) as [-> ->]. done.
  - apply reachable_Inv in Hr. rewrite <- (own_cancelled_iff _ _ _ Hr).
    destruct (Inv_ctx _ _ _ Hr) as [-> ->]. simpl.
    rewrite orb_false_r. apply bool_decide_eq_true.
Qed.

(** ** The goroutines run to their end *)

Lemma remaining_insert l i p q :
  l !! i = Some p →
  (remaining (<[i := q]> l) + remaining_of p = remaining l + remaining_of q)%nat.
Proof.
  revert i. induction l as [|x l IH]; intros [|i] H; simpl in *; try done.
  - injection H as ->. lia.
  - specialize (IH _ H). lia.
Qed.

Lemma remaining_pos l :
  (0 < remaining l)%nat → ∃ i p, l !! i = Some p ∧ (0 < remaining_of p)%nat.
Proof.
  induction l as [|x l IH]; simpl; [lia|]. intros H.
  destruct (decide (0 < remaining_of x)%nat) as [Hx|Hx].
  - by exists 0%nat, x.
  - destruct IH as (i & p & Hi & Hp); [lia|]. by exists (S i), p.
Qed.

Lemma remaining_zero l :
  remaining l = 0%nat → ∀ i p, l !! i = Some p → exited p = true.
Proof.
  induction l as [|x l IH]; intros H [|i] p Hp; simpl in *; try done.
  - injection Hp as ->. destruct p; simpl in *; lia || done.
  - apply (IH ltac:(lia) i p Hp).
Qed.

Lemma outstanding_pos l i p :
  l !! i = Some p → exited p = false → 1 ≤ outstanding l.
Proof.
  revert i. induction l as [|x l IH]; intros [|i] H Hp; simpl in *; try done.
  - injection H as ->. rewrite Hp. pose proof (outstanding_nonneg l). lia.
  - specialize (IH _ H Hp). destruct (exited x); lia.
Qed.

(** The goroutines never panic: [Done] finds the counter above zero. *)
Lemma step_op_no_crash parent st s i msg :
  reachable parent st s → step (StepOp i) s ≠ Crash msg.
Proof.
  intros HI%reachable_Inv H. simpl in H.
  unfold step_op in H. repeat case_match; simplify_eq.
  pose proof (outstanding_pos _ _ _ ltac:(eassumption) eq_refl).
  rewrite <- (Inv_counter _ _ _ HI) in *. lia.
Qed.

(** The only panic is the one of a call of [Join] that was released and
    finds the wait group in use again. *)
Lemma crash_is_reuse parent st s ev msg :
  reachable parent st s → step ev s = Crash msg →
  ∃ j n, ev = StepJoin j ∧ joins s !! j = Some (jWoken n) ∧
         1 ≤ waitGroup (b s) ∧
         msg = "sync: WaitGroup is reused before previous Wait has returned".
Proof.
  intros Hr H. pose proof (reachable_Inv _ _ _ Hr) as HI.
  destruct ev; try done.
  - by rewrite (Add_passes _ _ _ f HI) in H.
  - by destruct (step_op_no_crash _ _ _ _ _ Hr H).
  - simpl in H. unfold step_join in H.
    destruct (joins s !! j) as [[m|m|m|m|m r]|] eqn:Hj; try done.
    { by destruct (waitGroup (b s) =? 0). }
    destruct (waitGroup (b s) =? 0) eqn:E; simpl in H.
    + destruct (waiters (joins s) =? 0)%nat eqn:Hw; [done|].
      apply Nat.eqb_neq in Hw. exists j, m. split_and!; try done; [|by simplify_eq].
      destruct (waiters_sleeper _ Hw) as (k & n & Hk).
      by apply (Inv_sleepers _ _ _ HI _ _ Hk).
    + apply Z.eqb_neq in E. exists j, m. split_and!; try done; [|by simplify_eq].
      pose proof (outstanding_nonneg (ops s)).
      rewrite <- (Inv_counter _ _ _ HI) in *. lia.
  - simpl in H. by case_decide.
Qed.

(** While a goroutine has not returned, one of them can run a statement. *)
Lemma progress parent st s :
  Inv parent st s → (0 < remaining (ops s))%nat →
  ∃ i s', step (StepOp i) s = Next s' ∧
          (remaining (ops s') < remaining (ops s))%nat.
Proof.
  intros HI Hpos.
  assert (Hstep : ∀ i p, ops s !! i = Some p → (0 < remaining_of p)%nat →
    (∀ e, p = pcOnceDo e → ∀ k, errorOnce (b s) ≠ OnceRunning k) →
    ∃ s', step (StepOp i) s = Next s' ∧
          (remaining (ops s') < remaining (ops s))%nat).
  { intros i p Hi Hp Hfree. simpl. unfold step_op. rewrite Hi.
    destruct p; simpl in Hp; try lia.
    all: repeat case_match; try (eexists; split; [done|]; simpl).
    all: try (match goal with
              | |- context [<[_ := ?q]> _] =>
                  pose proof (remaining_insert (ops s) i _ q Hi) as Hr;
                  simpl in Hr; lia
              end).
    - by destruct (Hfree _ eq_refl owner).
    - pose proof (outstanding_pos _ _ _ Hi eq_refl).
      rewrite <- (Inv_counter _ _ _ HI) in *. lia. }
  destruct (errorOnce (b s)) as [|k|] eqn:E.
  - destruct (remaining_pos _ Hpos) as (i & p & Hi & Hp).
    exists i. apply (Hstep i p Hi Hp). congruence.
  - destruct (Inv_running _ _ _ HI _ E) as (p & Hk & Hin).
    exists k. apply (Hstep k p Hk); [destruct p; simpl in *; done || lia|].
    intros e ->. done.
  - destruct (remaining_pos _ Hpos) as (i & p & Hi & Hp).
    exists i. apply (Hstep i p Hi Hp). congruence.
Qed.

(** From every reachable state the goroutines can all run to their end. *)
Lemma drains parent st s :
  reachable parent st s →
  ∃ evs s', only_ops evs = true ∧ run evs s = Next s' ∧ all_exited s'.
Proof.
  remember (remaining (ops s)) as n eqn:Hn. revert s Hn.
  induction n as [n IH] using lt_wf_ind. intros s -> Hr.
  destruct (decide (remaining (ops s) = 0%nat)) as [Hz|Hnz].
  - exists [], s. split_and!; [done..|]. intros i p. by apply remaining_zero.
  - destruct (progress _ _ _ (reachable_Inv _ _ _ Hr) ltac:(lia))
      as (i & s1 & H1 & Hlt).
    destruct (IH _ Hlt s1 eq_refl) as (evs & s' & Hev & Hrun & Hex).
    { by eapply reach_step. }
    exists (StepOp i :: evs), s'. split_and!; [done| |done].
    simpl in *. by rewrite H1.
Qed.

(** Operations that succeed leave the contexts alone. *)
Lemma succeeds_step s i s' :
  (∀ k p, ops s !! k = Some p → succeeds p) →
  step (StepOp i) s = Next s' →
  (∀ k p, ops s' !! k = Some p → succeeds p) ∧ ctxs s' = ctxs s.
Proof.
  intros Hok H. simpl in H. unfold step_op in H.
  destruct (ops s !! i) as [p|] eqn:Hi; [|done].
  pose proof (Hok _ _ Hi) as Hp.
  destruct p; simpl in Hp; try done.
  - simplify_eq. split; [|done]. intros k p Hk. simpl in Hk. look; simpl; eauto.
  - rewrite Hp in H. simplify_eq. split; [|done].
    intros k p Hk. simpl in Hk. look; simpl; eauto.
  - case_match; simplify_eq. split; [|done].
    intros k p Hk. simpl in Hk. look; simpl; eauto.
Qed.

Lemma succeeds_run evs s s' :
  only_ops evs = true →
  (∀ k p, ops s !! k = Some p → succeeds p) →
  run evs s = Next s' →
  (∀ k p, ops s' !! k = Some p → failure p = None) ∧ ctxs s' = ctxs s.
Proof.
  revert s. induction evs as [|ev evs IH]; intros s Hev Hok H; simpl in *.
  - simplify_eq. split; [|done]. intros k p Hk.
    pose proof (Hok _ _ Hk). by destruct p.
  - apply andb_true_iff in Hev as [Hev Hevs].
    destruct ev; try done.
    destruct (step (StepOp i) s) as [s1| |] eqn:E; try done.
    destruct (succeeds_step s i s1 Hok E) as [Hok1 Hc1].
    destruct (IH s1 Hevs Hok1 H) as [? ?]. split; [done|congruence].
Qed.

(** When all goroutines have returned, a call of [Join] returns the
    slot, and changes neither the bundle nor the contexts. *)
Lemma Join_when_drained parent st s :
  Inv parent st s → all_exited s →
  ∃ s', Join s = Next s' ∧
        join_result (length (joins s)) s' = Some (firstError (b s)) ∧
        ctxs s' = ctxs s ∧ b s' = b s.
Proof.
  intros HI Hex. unfold Join. simpl. unfold step_join; simpl.
  rewrite lookup_app_r, Nat.sub_diag by done. simpl.
  rewrite (Inv_counter _ _ _ HI), (outstanding_exited _ Hex). simpl.
  rewrite list_lookup_insert_eq by (rewrite length_app; simpl; lia).
  eexists. split; [done|]. simpl. split_and!; try done.
  unfold join_result; simpl.
  rewrite list_lookup_insert_eq; [done|].
  rewrite length_insert, length_app; simpl; lia.
Qed.

Lemma no_failure_untouched parent st s :
  Inv parent st s →
  (∀ i p, ops s !! i = Some p → failure p = None) →
  untouched s.
Proof.
  intros HI Hok.
  destruct (slot_cases _ _ _ HI) as [H|(i & e & p & Hp & Hf & _)]; [done|].
  rewrite (Hok _ _ Hp) in Hf. done.
Qed.

(** C8: for every bundle made by [NewBundle] in which no operation has
    returned a failure, the slot is empty and the bundle has not called
    its cancel function; no statement of [Join] changes the bundle or
    the contexts, and what [Join] returns is success. When moreover
    every operation that is still running succeeds whatever it observes,
    the goroutines can run to their end, and then [Join] does return,
    success, with the contexts as they were. *)
Theorem Join_success_keeps_scope parent st s :
  reachable parent st s →
  (∀ i p, ops s !! i = Some p → failure p = None) →
  firstError (b s) = None ∧
  cancels (tr s) = [] ∧
  (cancel (b s) ∉ cancelled (ctxs s)) ∧
  (∀ j s', step (StepJoin j) s = Next s' →
           ctxs s' = ctxs s ∧ b s' = b s ∧
           ∀ n, joins s !! j = Some (jRead n) → join_result j s' = Some None) ∧
  ((∀ i p, ops s !! i = Some p → succeeds p) →
   ∃ evs s1 s2,
     only_ops evs = true ∧ run evs s = Next s1 ∧ Join s1 = Next s2 ∧
     join_result (length (joins s1)) s2 = Some None ∧
     ctxs s2 = ctxs s ∧ errorOnce (b s2) = OnceFresh).
Proof.
  intros Hr Hok. pose proof (reachable_Inv _ _ _ Hr) as HI.
  destruct (no_failure_untouched _ _ _ HI Hok) as (Hf & _ & Hc & Hn).
  split_and!; try done.
  - intros j s' H. step_inv H; simpl; split_and!; try done.
    intros n' ?. simplify_eq. unfold join_result; simpl.
    rewrite list_lookup_insert_eq; [by rewrite Hf|]. by eapply lookup_lt_Some.
  - intros Hsucc.
    destruct (drains _ _ _ Hr) as (evs & s1 & Hev & Hrun & Hex).
    destruct (succeeds_run _ _ _ Hev Hsucc Hrun) as [Hok1 Hc1].
    pose proof (reachable_Inv _ _ _ (run_reachable _ _ _ _ _ Hr Hrun)) as HI1.
    destruct (Join_when_drained _ _ _ HI1 Hex) as (s2 & HJ & Hres & Hc2 & Hb2).
    destruct (no_failure_untouched _ _ _ HI1 Hok1) as (Hf1 & Hs1 & _ & _).
    exists evs, s1, s2. split_and!; try done.
    + by rewrite Hres, Hf1.
    + congruence.
    + rewrite Hb2. destruct (errorOnce (b s1)) as [|k|] eqn:E; [done| |].
      * destruct (Inv_running _ _ _ HI1 _ E) as (p & Hp & Hin).
        pose proof (Hok1 _ _ Hp). by destruct p.
      * destruct (Inv_done _ _ _ HI1 E) as (i & e & p & _ & _ & He & _).
        congruence.
Qed.

(** ** After [Wait] has returned *)

(** When all goroutines have returned, a step that is not a call of
    [Add] leaves the bundle and the table of operations as they are. *)
Lemma quiet_step ev s s' :
  all_exited s → is_add ev = false → step ev s = Next s' →
  b s' = b s ∧ ops s' = ops s.
Proof.
  intros Hex Hev H. destruct ev; try done; step_inv H; try done.
  all: by pose proof (Hex _ _ ltac:(eassumption)).
Qed.

Lemma counter_zero_exited parent st s :
  Inv parent st s → waitGroup (b s) = 0 → all_exited s.
Proof.
  intros HI Hz i p Hi. eapply outstanding_zero; [|done].
  by rewrite <- (Inv_counter _ _ _ HI).
Qed.

Lemma released_of_sleep v (l : list jpc) j n :
  0 ≤ v → l !! j = Some (jSleep n) →
  (released v l !! j = Some (jSleep n) ∧ 1 ≤ v) ∨
  (released v l !! j = Some (jWoken n) ∧ v = 0).
Proof.
  intros Hv Hj. unfold released. destruct (0 <? v) eqn:E; simpl.
  - left. apply Z.ltb_lt in E. split; [done|lia].
  - apply Z.ltb_ge in E. right.
    destruct (waiters l =? 0)%nat eqn:Hw.
    + apply Nat.eqb_eq in Hw. by destruct (waiters_pos _ _ _ Hj).
    + rewrite list_lookup_fmap, Hj. split; [done|lia].
Qed.

(** The entry [j] of the table of calls of [Join] after one entry has
    been replaced. *)
Ltac join_lookup Ej :=
  match goal with
  | |- context [<[?a := _]> _ !! ?c] =>
      destruct (decide (a = c)) as [->|?];
      [rewrite list_lookup_insert_eq by (by eapply lookup_lt_Some)
      |rewrite list_lookup_insert_ne by done; rewrite Ej];
      first [done | simplify_eq]
  end.

Lemma after_wait_step parent st ev s s' j :
  Inv parent st s → is_add ev = false → step ev s = Next s' →
  after_wait j s → after_wait j s'.
Proof.
  intros HI Hev H Hj.
  pose proof (step_Inv _ _ _ _ _ HI H) as HI'.
  unfold after_wait in Hj.
  destruct (joins s !! j) as [[m|m|m|m|m r]|] eqn:Ej; try done.
  - (* the call sleeps *)
    clear Hj.
    destruct ev; try done; step_inv H; unfold after_wait; simpl in *;
      rewrite ?Ej; try done.
    + match goal with E : (_ <? 0) = false |- _ => apply Z.ltb_ge in E end.
      destruct (released_of_sleep (waitGroup (b s) - 1) _ _ _
                  ltac:(done) Ej) as [[-> _]|[-> Hv]]; [done|].
      apply (counter_zero_exited _ _ _ HI'). simpl. lia.
    + by rewrite lookup_app_l by (by eapply lookup_lt_Some); rewrite Ej.
    + join_lookup Ej.
    + join_lookup Ej.
    + join_lookup Ej.
    + join_lookup Ej.
  - (* released *)
    destruct (quiet_step _ _ _ Hj Hev H) as [Hb Ho].
    assert (Hex : all_exited s') by (unfold all_exited; by rewrite Ho).
    clear HI'.
    destruct ev; try done; step_inv H; unfold after_wait; simpl in *;
      rewrite ?Ej; try done.
    all: try (by pose proof (Hj _ _ ltac:(eassumption))).
    all: try (by rewrite lookup_app_l by (by eapply lookup_lt_Some); rewrite Ej).
    all: join_lookup Ej.
  - (* at the return statement *)
    destruct (quiet_step _ _ _ Hj Hev H) as [Hb Ho].
    assert (Hex : all_exited s') by (unfold all_exited; by rewrite Ho).
    clear HI'.
    destruct ev; try done; step_inv H; unfold after_wait; simpl in *;
      rewrite ?Ej; try done.
    all: try (by pose proof (Hj _ _ ltac:(eassumption))).
    all: try (by rewrite lookup_app_l by (by eapply lookup_lt_Some); rewrite Ej).
    all: join_lookup Ej.
  - (* returned *)
    destruct Hj as [Hj ->].
    destruct (quiet_step _ _ _ Hj Hev H) as [Hb Ho].
    assert (Hex : all_exited s') by (unfold all_exited; by rewrite Ho).
    clear HI'.
    destruct ev; try done; step_inv H; unfold after_wait; simpl in *;
      rewrite ?Ej; try done.
    all: try (by pose proof (Hj _ _ ltac:(eassumption))).
    all: try (by rewrite lookup_app_l by (by eapply lookup_lt_Some); rewrite Ej).
    all: join_lookup Ej.
Qed.

Lemma after_wait_run parent st evs s s' j :
  reachable parent st s → no_add evs = true → run evs s = Next s' →
  after_wait j s → after_wait j s'.
Proof.
  revert s. induction evs as [|ev evs IH]; intros s Hr Hev H Hj; simpl in *.
  - by simplify_eq.
  - apply andb_true_iff in Hev as [Hev%negb_true_iff Hevs].
    destruct (step ev s) as [s1| |] eqn:E; try done.
    apply (IH s1); [by eapply reach_step|done..|].
    eapply after_wait_step; [by apply reachable_Inv in Hr|done..].
Qed.

(** C9: for every bundle made by [NewBundle]: when the [Wait] of a call
    of [Join] has returned and from then on nobody calls [Add], then
    whatever else happens, once that call has returned [r], a further
    call of [Join] passes [Wait] at once and returns [r] as well. *)
Theorem Join_idempotent parent st s0 j s1 evs s2 r :
  reachable parent st s0 →
  (∃ n, joins s0 !! j = Some (jWait n)) →
  step (StepJoin j) s0 = Next s1 →
  no_add evs = true →
  run evs s1 = Next s2 →
  join_result j s2 = Some r →
  ∃ s3, Join s2 = Next s3 ∧ join_result (length (joins s2)) s3 = Some r.
Proof.
  intros Hr [n Hj] H1 Hevs H2 Hres.
  pose proof (reachable_Inv _ _ _ Hr) as HI0.
  assert (Hr1 : reachable parent st s1) by (by eapply reach_step).
  assert (Hr2 : reachable parent st s2) by (by eapply run_reachable).
  pose proof (reachable_Inv _ _ _ Hr2) as HI2.
  assert (Ha : after_wait j s1).
  { simpl in H1. unfold step_join in H1. rewrite Hj in H1.
    unfold after_wait.
    destruct (waitGroup (b s0) =? 0) eqn:E; simplify_eq; simpl.
    - rewrite list_lookup_insert_eq by (by eapply lookup_lt_Some).
      apply Z.eqb_eq in E. by apply (counter_zero_exited _ _ _ HI0).
    - by rewrite list_lookup_insert_eq by (by eapply lookup_lt_Some). }
  pose proof (after_wait_run _ _ _ _ _ _ Hr1 Hevs H2 Ha) as Ha2.
  unfold after_wait, join_result in *.
  destruct (joins s2 !! j) as [[m|m|m|m|m r']|]; try done.
  destruct Ha2 as [Hex2 ->]. simplify_eq.
  destruct (Join_when_drained _ _ _ HI2 Hex2) as (s3 & HJ & Hres3 & _).
  by exists s3.
Qed.

(** ** The theorems at work on the example schedules *)

Lemma st0_ok : store_ok st0 None.
Proof. split; intros id Hin; simpl in Hin; [|by apply elem_of_nil in Hin].
  by apply not_elem_of_empty in Hin. Qed.

Lemma after_reachable evs s :
  run evs (init None st0) = Next s → reachable None st0 s.
Proof. apply run_reachable, reach_init, st0_ok. Qed.

Lemma Join_returns_first_error_witness :
  let s := after (race ++ [CallJoin; StepJoin 0%nat]) in
  reachable None st0 s ∧ joins s !! 0%nat = Some (jRead 3) ∧
  ∃ s', step (StepJoin 0%nat) s = Next s' ∧
        join_result 0%nat s' = Some (Some "E2").
Proof.
  intros s.
  assert (Hr : reachable None st0 s).
  { apply (after_reachable (race ++ [CallJoin; StepJoin 0%nat])).
    vm_compute. reflexivity. }
  assert (Hj : joins s !! 0%nat = Some (jRead 3)).
  { vm_compute. reflexivity. }
  split; [exact Hr|]. split; [exact Hj|].
  destruct (Join_returns_first_error None st0 s 0%nat 3%nat Hr Hj)
    as (s' & Hs & Hres & _).
  exists s'. split; [exact Hs|]. rewrite Hres. vm_compute. reflexivity.
Defined.

Lemma first_error_stored_once_witness :
  reachable None st0 (after race) ∧
  ∃ i e, stores (tr (after race)) = [(i, e)] ∧
         cancels (tr (after race)) = [i] ∧
         firstError (b (after race)) = Some e ∧
         cancel (b (after race)) ∈ cancelled (ctxs (after race)) ∧
         Err (cancelled (ctxs (after race))) (context (b (after race))) = true.
Proof.
  assert (Hr : reachable None st0 (after race)).
  { apply (after_reachable race). vm_compute. reflexivity. }
  split; [exact Hr|].
  destruct (first_error_stored_once None st0 (after race) Hr)
    as (_ & _ & _ & _ & _ & _ & _ & _ & H).
  apply (H 0%nat (pcExit (Some "E1")) "E1").
  - vm_compute. reflexivity.
  - reflexivity.
Defined.

Lemma Join_waits_for_operations_witness :
  let s := after [CallAdd op_ok; StepOp 0; CallJoin; StepJoin 0; StepOp 0]%nat in
  reachable None st0 s ∧
  step (StepJoin 0%nat) s = Stuck ∧
  ∃ s', step (StepOp 0%nat) s = Next s' ∧ waitGroup (b s') = 0 ∧
        joins s' !! 0%nat = Some (jWoken 1).
Proof.
  intros s.
  assert (Hr : reachable None st0 s).
  { apply (after_reachable
             [CallAdd op_ok; StepOp 0; CallJoin; StepJoin 0; StepOp 0]%nat).
    vm_compute. reflexivity. }
  assert (Hop : ops s !! 0%nat = Some (pcDone None)) by (vm_compute; reflexivity).
  assert (Hj : joins s !! 0%nat = Some (jSleep 1)) by (vm_compute; reflexivity).
  split; [exact Hr|].
  destruct (Join_waits_for_operations None st0 s Hr) as (_ & _ & H3 & _ & H5 & _).
  split.
  - destruct (H3 0%nat 1%nat 0%nat (pcDone None) Hop eq_refl) as (_ & Hs & _).
    exact (Hs Hj).
  - destruct (H5 0%nat None Hop) as (s' & Hs' & Hz & Hw).
    { vm_compute. reflexivity. }
    exists s'. split; [exact Hs'|]. split; [exact Hz|]. exact (Hw 0%nat 1%nat Hj).
Defined.

Lemma store_before_cancel_witness :
  reachable None st0 (after race) ∧
  ∃ e, before (ObsStore 1 e) (ObsCancel 1) (tr (after race)).
Proof.
  assert (Hr : reachable None st0 (after race)).
  { apply (after_reachable race). vm_compute. reflexivity. }
  split; [exact Hr|].
  destruct (store_before_cancel None st0 (after race) Hr) as (H & _ & _).
  apply H.
  assert (Htr : tr (after race) = [ObsStore 1 "E2"; ObsCancel 1]).
  { vm_compute. reflexivity. }
  rewrite Htr. apply list_elem_of_further, list_elem_of_here.
Defined.

Lemma NewBundle_nil_parent_witness :
  reachable None st0 (after race) ∧
  reachable (Some Background) st0 (after race) ∧
  Err (cancelled (ctxs (after race))) (context (b (after race))) = true.
Proof.
  assert (Hr : reachable None st0 (after race)).
  { apply (after_reachable race). vm_compute. reflexivity. }
  split; [exact Hr|].
  destruct (NewBundle_nil_parent st0 (after race) Hr) as (_ & Hr' & _ & H).
  split; [exact Hr'|]. apply H.
  assert (Hc : cancels (tr (after race)) = [1%nat]).
  { vm_compute. reflexivity. }
  rewrite Hc. discriminate.
Defined.

Lemma Join_success_keeps_scope_witness :
  let s := after [CallAdd op_ok; CallAdd op_ok; StepOp 0%nat; StepOp 0%nat] in
  reachable None st0 s ∧
  ∃ evs s1 s2,
    only_ops evs = true ∧ run evs s = Next s1 ∧ Join s1 = Next s2 ∧
    join_result (length (joins s1)) s2 = Some None ∧
    ctxs s2 = ctxs s ∧ errorOnce (b s2) = OnceFresh.
Proof.
  intros s.
  assert (Hr : reachable None st0 s).
  { apply (after_reachable
             [CallAdd op_ok; CallAdd op_ok; StepOp 0%nat; StepOp 0%nat]).
    vm_compute. reflexivity. }
  split; [exact Hr|].
  assert (Hops : ops s = [pcDone None; pcGo op_ok]) by (vm_compute; reflexivity).
  assert (Hall : ∀ i p, ops s !! i = Some p → p = pcDone None ∨ p = pcGo op_ok).
  { intros i p. rewrite Hops.
    destruct i as [|[|i]]; simpl; intros H; inversion H; auto. }
  destruct (Join_success_keeps_scope None st0 s Hr) as (_ & _ & _ & _ & H).
  - intros i p Hp. destruct (Hall i p Hp) as [-> | ->]; reflexivity.
  - apply H. intros i p Hp. destruct (Hall i p Hp) as [-> | ->]; simpl;
      [reflexivity|intros c; reflexivity].
Defined.

Lemma Join_idempotent_witness :
  let s0 := after (race ++ [CallJoin]) in
  let s1 := after (race ++ [CallJoin; StepJoin 0%nat]) in
  let evs := [EnvCancel 7; StepJoin 0%nat] in
  let s2 := after (race ++ [CallJoin; StepJoin 0%nat] ++ evs) in
  reachable None st0 s0 ∧
  step (StepJoin 0%nat) s0 = Next s1 ∧
  run evs s1 = Next s2 ∧
  join_result 0%nat s2 = Some (Some "E2") ∧
  ∃ s3, Join s2 = Next s3 ∧
        join_result (length (joins s2)) s3 = Some (Some "E2").
Proof.
  intros s0 s1 evs s2.
  assert (Hr : reachable None st0 s0).
  { apply (after_reachable (race ++ [CallJoin])). vm_compute. reflexivity. }
  assert (H1 : step (StepJoin 0%nat) s0 = Next s1) by (vm_compute; reflexivity).
  assert (H2 : run evs s1 = Next s2) by (vm_compute; reflexivity).
  assert (H3 : join_result 0%nat s2 = Some (Some "E2")) by (vm_compute; reflexivity).
  split; [exact Hr|]. split; [exact H1|]. split; [exact H2|]. split; [exact H3|].
  apply (Join_idempotent None st0 s0 0%nat s1 evs s2 (Some "E2") Hr).
  - exists 3%nat. vm_compute. reflexivity.
  - exact H1.
  - reflexivity.
  - exact H2.
  - exact H3.
Defined.

(** Scenario "Success": [Join] returns success and nothing is cancelled. *)
Example success_scenario :
  ∃ s', Join (after calm) = Next s' ∧
        join_result 0%nat s' = Some None ∧
        Err (cancelled (ctxs s')) (context (b s')) = false.
Proof. eexists. split; [vm_compute; reflexivity|]. split; vm_compute; reflexivity. Qed.

(** Scenario "First failure wins": the failure of the operation that
    reached [Do] first is returned, the other one is dropped. *)
Example first_failure_wins :
  ∃ s', Join (after race) = Next s' ∧
        join_result 0%nat s' = Some (Some "E2") ∧
        tr s' = [ObsStore 1 "E2"; ObsCancel 1; ObsJoin 0 (Some "E2")] ∧
        Err (cancelled (ctxs s')) (context (b s')) = true.
Proof.
  eexists. split; [vm_compute; reflexivity|]. split_and!; vm_compute; reflexivity.
Qed.

(** While the winner is inside [Do], the other failing operation waits. *)
Example loser_waits :
  let s := after [CallAdd (op_fail "E1"); CallAdd (op_fail "E2");
                  StepOp 0; StepOp 1; StepOp 0; StepOp 1; StepOp 1]%nat in
  errorOnce (b s) = OnceRunning 1 ∧ step (StepOp 0%nat) s = Stuck.
Proof. split; vm_compute; reflexivity. Qed.

(** Scenario "Parent cancellation": under a parent that is cancelled
    the operation finds its context cancelled, although the bundle has
    not called its own cancel function; its failure is what [Join]
    returns. *)
Example parent_cancels_child :
  let s := state_of (run [CallAdd op_polite; StepOp 0; EnvCancel 0]%nat
                       (init (Some parent1) st1)) (init (Some parent1) st1) in
  Err (cancelled (ctxs s)) (context (b s)) = true ∧ cancels (tr s) = [] ∧
  ∃ s1 s2, run (replicate 6 (StepOp 0%nat)) s = Next s1 ∧ Join s1 = Next s2 ∧
           join_result 0%nat s2 = Some (Some "context canceled").
Proof.
  intros s. split; [vm_compute; reflexivity|]. split; [vm_compute; reflexivity|].
  eexists _, _. split; [vm_compute; reflexivity|].
  split; vm_compute; reflexivity.
Qed.

(** A call of [Join] that slept in [Wait] and was released returns when
    it runs next; when [Add] is called before it runs, it panics. *)
Example reuse_panics :
  let s := after [CallAdd op_ok; StepOp 0; CallJoin; StepJoin 0;
                  StepOp 0; StepOp 0]%nat in
  joins s = [jWoken 1] ∧
  (∃ s', step (StepJoin 0%nat) s = Next s' ∧ joins s' = [jRead 1]) ∧
  run [CallAdd op_ok; StepJoin 0%nat] s
  = Crash "sync: WaitGroup is reused before previous Wait has returned".
Proof.
  split; [vm_compute; reflexivity|]. split; [|vm_compute; reflexivity].
  eexists. split; vm_compute; reflexivity.
Qed.


(** ** More about the bundle *)

Lemma outstanding_le_length l : outstanding l ≤ Z.of_nat (length l).
Proof. induction l as [|p l IH]; simpl length; simpl outstanding; [lia|].
  destruct (exited p); lia. Qed.

Lemma woken_ok_step parent st ev s s' :
  Inv parent st s → is_add ev = false → step ev s = Next s' →
  woken_ok s → woken_ok s'.
Proof.
  intros HI Hev H Hw k m Hk.
  pose proof (Hw k m) as Hold.
  destruct ev; try done; step_inv H; simpl in *.
  all: try (by apply Hold).
  - match goal with E : (_ <? 0) = false |- _ => apply Z.ltb_ge in E end.
    destruct (released_lookup _ _ _ _ Hk) as (q0 & Hq0 & [<-|Hq]).
    + specialize (Hw _ _ Hq0). lia.
    + destruct q0; simpl in Hq; simplify_eq.
      * destruct (released_of_sleep (waitGroup (b s) - 1) _ _ _
                    ltac:(done) Hq0) as [[Hs _]|[_ Hv]]; [congruence|lia].
      * specialize (Hw _ _ Hq0). lia.
  - apply lookup_snoc_Some in Hk as [(_ & Hk)|(_ & ?)]; [by apply Hold|done].
  - apply list_lookup_insert_Some in Hk as [(_ & ? & _)|(_ & Hk)];
      [done|by apply Hold].
  - apply list_lookup_insert_Some in Hk as [(_ & ? & _)|(_ & Hk)];
      [done|by apply Hold].
  - apply list_lookup_insert_Some in Hk as [(_ & ? & _)|(_ & Hk)];
      [done|by apply Hold].
  - apply list_lookup_insert_Some in Hk as [(_ & ? & _)|(_ & Hk)];
      [done|by apply Hold].
Qed.

Lemma proper_use_no_crash parent st evs s msg :
  reachable parent st s → woken_ok s → no_add evs = true →
  run evs s ≠ Crash msg.
Proof.
  revert s. induction evs as [|ev evs IH]; intros s Hr Hw Hev; simpl in *.
  - done.
  - apply andb_true_iff in Hev as [Hev%negb_true_iff Hevs].
    destruct (step ev s) as [s1| |msg'] eqn:E; try done.
    + apply IH; [by eapply reach_step| |done].
      eapply woken_ok_step; [by apply reachable_Inv in Hr|done..].
    + destruct (crash_is_reuse _ _ _ _ _ Hr E) as (j & n & _ & Hj & Hc & _).
      specialize (Hw _ _ Hj). lia.
Qed.

(** X1: in every reachable state of a bundle the counter of the wait
    group lies between zero and the number of calls of [Add], and no
    step panics with a negative counter: the deferred
    [b.waitGroup.Done()] never finds the counter at zero. As long as
    nobody calls [Add] once [Join] has been called, nothing panics at
    all. *)
Theorem counter_never_negative parent st s :
  reachable parent st s →
  0 ≤ waitGroup (b s) ≤ Z.of_nat (length (ops s)) ∧
  (∀ ev, step ev s ≠ Crash "sync: negative WaitGroup counter") ∧
  (joins s = [] →
   ∀ evs msg, no_add evs = true → run evs s ≠ Crash msg).
Proof.
  intros Hr. pose proof (reachable_Inv _ _ _ Hr) as HI. split_and!.
  - rewrite (Inv_counter _ _ _ HI).
    pose proof (outstanding_nonneg (ops s)). lia.
  - rewrite (Inv_counter _ _ _ HI). apply outstanding_le_length.
  - intros ev H.
    by destruct (crash_is_reuse _ _ _ _ _ Hr H) as (_ & _ & _ & _ & _ & ?).
  - intros Hj evs msg Hev. apply (proper_use_no_crash _ _ _ _ _ Hr); [|done].
    intros j n Hjn. by rewrite Hj in Hjn.
Qed.

(** X2: a bundle never blocks its own goroutines for good: from every
    reachable state the goroutines alone, with operations that return
    when they are run, can run to their end; the counter is then zero,
    and a call of [Join] passes [Wait] and returns the slot. *)
Theorem goroutines_run_to_end parent st s :
  reachable parent st s →
  ∃ evs s1 s2,
    only_ops evs = true ∧ run evs s = Next s1 ∧ all_exited s1 ∧
    waitGroup (b s1) = 0 ∧
    Join s1 = Next s2 ∧
    join_result (length (joins s1)) s2 = Some (firstError (b s1)).
Proof.
  intros Hr. destruct (drains _ _ _ Hr) as (evs & s1 & Hev & Hrun & Hex).
  pose proof (reachable_Inv _ _ _ (run_reachable _ _ _ _ _ Hr Hrun)) as HI1.
  destruct (Join_when_drained _ _ _ HI1 Hex) as (s2 & HJ & Hres & _).
  exists evs, s1, s2. split_and!; try done.
  by rewrite (Inv_counter _ _ _ HI1), (outstanding_exited _ Hex).
Qed.

(** X3: once an operation that returned a failure is past
    [b.errorOnce.Do], the context of the bundle is cancelled, and every
    operation that makes its call from then on is given a cancelled
    context. *)
Theorem failure_cancels_context parent st s k p e :
  reachable parent st s →
  ops s !! k = Some p → past_once p = Some e →
  Err (cancelled (ctxs s)) (context (b s)) = true ∧
  ∀ i f, ops s !! i = Some (pcCall f) →
         step (StepOp i) s
         = Next (set_op i (match f true with
                           | None => pcDone None
                           | Some err => pcOnceDo err
                           end) s).
Proof.
  intros HI%reachable_Inv Hk Hp.
  assert (Hc : Err (cancelled (ctxs s)) (context (b s)) = true).
  { pose proof (Inv_failed _ _ _ HI _ _ _ Hk Hp) as E.
    destruct (Inv_done _ _ _ HI E) as (i & e1 & _ & _ & _ & _ & _ & _ & Hin).
    destruct (Inv_ctx _ _ _ HI) as [Hctx Hown]. rewrite Hctx. simpl.
    rewrite Hown in Hin. by rewrite (bool_decide_eq_true_2 _ Hin). }
  split; [done|]. intros i f Hi. simpl. unfold step_op. rewrite Hi, Hc.
  by destruct (f true).
Qed.

Lemma Err_mono (c c' : gset nat) ctx :
  c ⊆ c' → Err c ctx = true → Err c' ctx = true.
Proof.
  intros Hsub. induction ctx as [|id parent IH]; simpl; [done|].
  intros [Hin%bool_decide_eq_true|H]%orb_true_iff; apply orb_true_iff.
  - left. apply bool_decide_eq_true. by apply Hsub.
  - right. by apply IH.
Qed.

Lemma step_cancelled_mono ev s s' :
  step ev s = Next s' → cancelled (ctxs s) ⊆ cancelled (ctxs s').
Proof.
  intros H. destruct ev; step_inv H; simpl; try done.
  all: apply union_subseteq_r.
Qed.

Lemma run_cancelled_mono evs s s' :
  run evs s = Next s' → cancelled (ctxs s) ⊆ cancelled (ctxs s').
Proof.
  revert s. induction evs as [|ev evs IH]; intros s H; simpl in H.
  - by simplify_eq.
  - destruct (step ev s) as [s1| |] eqn:E; try done.
    etrans; [by eapply step_cancelled_mono|by apply IH].
Qed.

(** X4: when the parent given to [NewBundle] is cancelled, the context
    of the bundle is cancelled, and stays so whatever happens next: a
    cancellation is never taken back, and the bundle never changes its
    context. *)
Theorem parent_cancellation_reaches_bundle parent st s evs s' :
  reachable parent st s →
  Err (cancelled (ctxs s)) (parent_or_background parent) = true →
  run evs s = Next s' →
  context (b s') = context (b s) ∧
  Err (cancelled (ctxs s')) (context (b s')) = true.
Proof.
  intros Hr Hp Hrun.
  pose proof (reachable_Inv _ _ _ Hr) as HI.
  pose proof (reachable_Inv _ _ _ (run_reachable _ _ _ _ _ Hr Hrun)) as HI'.
  destruct (Inv_ctx _ _ _ HI) as [Hc _], (Inv_ctx _ _ _ HI') as [Hc' _].
  split; [congruence|]. rewrite Hc'. simpl. apply orb_true_iff. right.
  eapply Err_mono; [|done]. by eapply run_cancelled_mono.
Qed.

(** A failure that [Join] has returned is in the slot. *)
Lemma returned_failure_in_slot parent st s j n e :
  reachable parent st s →
  joins s !! j = Some (jReturned n (Some e)) → firstError (b s) = Some e.
Proof.
  intros Hr. revert j n e.
  induction Hr as [Hok|s ev s' Hr IH H]; intros j n e Hj; [done|].
  pose proof (reachable_Inv _ _ _ Hr) as HI.
  assert (Hold : joins s !! j = Some (jReturned n (Some e)) →
                 firstError (b s') = Some e).
  { intros Hj'. eapply step_firstError; [done|by eapply IH|by destruct HI]. }
  destruct ev; step_inv H; simpl in *; try (by apply Hold).
  - apply released_lookup in Hj as (q0 & Hq0 & [<-|Hq]); [by apply Hold|].
    destruct q0; simpl in Hq; simplify_eq. by apply Hold.
  - apply lookup_snoc_Some in Hj as [(_ & Hj)|(_ & ?)]; [by apply Hold|done].
  - apply list_lookup_insert_Some in Hj as [(_ & ? & _)|(_ & Hj)];
      [done|by apply Hold].
  - apply list_lookup_insert_Some in Hj as [(_ & ? & _)|(_ & Hj)];
      [done|by apply Hold].
  - apply list_lookup_insert_Some in Hj as [(_ & ? & _)|(_ & Hj)];
      [done|by apply Hold].
  - apply list_lookup_insert_Some in Hj as [(_ & ? & _)|(_ & Hj)];
      [by simplify_eq|by apply Hold].
Qed.

Lemma run_firstError parent st evs s s' e :
  reachable parent st s → run evs s = Next s' →
  firstError (b s) = Some e → firstError (b s') = Some e.
Proof.
  revert s. induction evs as [|ev evs IH]; intros s Hr H He; simpl in H.
  - by simplify_eq.
  - destruct (step ev s) as [s1| |] eqn:E; try done.
    apply (IH s1); [by eapply reach_step|done|].
    eapply step_firstError; [done..|]. by destruct (reachable_Inv _ _ _ Hr).
Qed.

(** X5: a failure that a call of [Join] has returned is final: whatever
    happens afterwards, further calls of [Add] included, the slot keeps
    it and every call of [Join] that returns later returns the same
    failure. *)
Theorem Join_failure_is_final parent st s j e evs s' j' n :
  reachable parent st s →
  join_result j s = Some (Some e) →
  run evs s = Next s' →
  joins s' !! j' = Some (jRead n) →
  firstError (b s') = Some e ∧
  ∃ s'', step (StepJoin j') s' = Next s'' ∧
         join_result j' s'' = Some (Some e).
Proof.
  intros Hr Hres Hrun Hj'.
  assert (He : firstError (b s) = Some e).
  { unfold join_result in Hres.
    destruct (joins s !! j) as [[| | | |m r]|] eqn:Hj; try done. simplify_eq.
    by eapply returned_failure_in_slot. }
  pose proof (run_firstError _ _ _ _ _ _ Hr Hrun He) as He'.
  split; [done|]. eexists. split.
  { simpl. unfold step_join. by rewrite Hj'. }
  unfold join_result. simpl. rewrite list_lookup_insert_eq.
  - by rewrite He'.
  - by eapply lookup_lt_Some.
Qed.

(** X6: which failure is the first is decided at [b.errorOnce.Do], not
    by the order of the calls of [Add]: after [Add] of an operation
    failing with [e1] and then [Add] of one failing with [e2], some
    schedule ends with [e1] in the slot and another one with [e2]. *)
Theorem either_failure_may_win parent st e1 e2 :
  store_ok st parent →
  let s0 := state_of (run [CallAdd (op_fail e1); CallAdd (op_fail e2)]
                          (init parent st)) (init parent st) in
  reachable parent st s0 ∧
  ∃ evs1 evs2 s1 s2,
    only_ops evs1 = true ∧ only_ops evs2 = true ∧
    run evs1 s0 = Next s1 ∧ run evs2 s0 = Next s2 ∧
    all_exited s1 ∧ all_exited s2 ∧
    firstError (b s1) = Some e1 ∧ firstError (b s2) = Some e2.
Proof.
  intros Hok s0.
  assert (Hr : reachable parent st s0).
  { apply (run_reachable _ _ [CallAdd (op_fail e1); CallAdd (op_fail e2)]
             (init parent st)); [by apply reach_init|reflexivity]. }
  split; [done|]. subst s0.
  exists (replicate 7 (StepOp 0%nat) ++ replicate 4 (StepOp 1%nat)),
         (replicate 7 (StepOp 1%nat) ++ replicate 4 (StepOp 0%nat)).
  eexists _, _.
  split; [reflexivity|]. split; [reflexivity|].
  split; [vm_compute; reflexivity|]. split; [vm_compute; reflexivity|].
  split_and!; try reflexivity.
  - intros [|[|i]] p Hp; simpl in Hp; by simplify_eq.
  - intros [|[|i]] p Hp; simpl in Hp; by simplify_eq.
Qed.

(** X7: a bundle on which [Add] was never called: [Join] passes [Wait]
    at once and returns success, whatever was cancelled meanwhile. *)
Theorem Join_without_operations parent st s :
  reachable parent st s →
  ops s = [] →
  ∃ s', Join s = Next s' ∧
        join_result (length (joins s)) s' = Some None ∧
        b s' = b s ∧ ctxs s' = ctxs s.
Proof.
  intros HI%reachable_Inv Hops.
  assert (Hex : all_exited s).
  { intros i p Hp. by rewrite Hops in Hp. }
  destruct (Join_when_drained _ _ _ HI Hex) as (s' & HJ & Hres & Hc & Hb).
  destruct (no_failure_untouched _ _ _ HI) as (Hf & _).
  { intros i p Hp. by rewrite Hops in Hp. }
  exists s'. split_and!; try done. by rewrite Hres, Hf.
Qed.

(** ** The further theorems at work *)

Lemma st1_ok : store_ok st1 (Some parent1).
Proof.
  split; intros id Hin; simpl in *.
  - by apply not_elem_of_empty in Hin.
  - apply list_elem_of_singleton in Hin as ->. lia.
Qed.

Lemma counter_never_negative_witness :
  reachable None st0 (after race) ∧
  0 ≤ waitGroup (b (after race)) ≤ Z.of_nat (length (ops (after race))).
Proof.
  assert (Hr : reachable None st0 (after race)).
  { apply (after_reachable race). vm_compute. reflexivity. }
  split; [exact Hr|].
  destruct (counter_never_negative None st0 (after race) Hr) as [H _].
  exact H.
Defined.

Lemma goroutines_run_to_end_witness :
  let s := after [CallAdd (op_fail "E1"); CallAdd op_ok;
                  StepOp 0; StepOp 0; StepOp 0]%nat in
  reachable None st0 s ∧
  ∃ evs s1 s2,
    only_ops evs = true ∧ run evs s = Next s1 ∧ all_exited s1 ∧
    waitGroup (b s1) = 0 ∧
    Join s1 = Next s2 ∧
    join_result (length (joins s1)) s2 = Some (firstError (b s1)).
Proof.
  intros s.
  assert (Hr : reachable None st0 s).
  { apply (after_reachable [CallAdd (op_fail "E1"); CallAdd op_ok;
                            StepOp 0; StepOp 0; StepOp 0]%nat).
    vm_compute. reflexivity. }
  split; [exact Hr|].
  exact (goroutines_run_to_end None st0 s Hr).
Defined.

Lemma failure_cancels_context_witness :
  let s := after (race ++ [CallAdd op_polite; StepOp 3%nat]) in
  reachable None st0 s ∧
  ops s !! 0%nat = Some (pcExit (Some "E1")) ∧
  Err (cancelled (ctxs s)) (context (b s)) = true ∧
  step (StepOp 3%nat) s = Next (set_op 3 (pcOnceDo "context canceled") s).
Proof.
  intros s.
  assert (Hr : reachable None st0 s).
  { apply (after_reachable (race ++ [CallAdd op_polite; StepOp 3%nat])).
    vm_compute. reflexivity. }
  assert (H0 : ops s !! 0%nat = Some (pcExit (Some "E1"))).
  { vm_compute. reflexivity. }
  split; [exact Hr|]. split; [exact H0|].
  destruct (failure_cancels_context None st0 s 0%nat _ "E1" Hr H0 eq_refl)
    as [Hc Hs].
  split; [exact Hc|]. apply (Hs 3%nat op_polite). vm_compute. reflexivity.
Defined.

Lemma parent_cancellation_reaches_bundle_witness :
  let s := state_of (run [EnvCancel 0] (init (Some parent1) st1))
                    (init (Some parent1) st1) in
  let evs := [CallAdd op_polite; StepOp 0; StepOp 0]%nat in
  let s' := state_of (run evs s) s in
  reachable (Some parent1) st1 s ∧
  Err (cancelled (ctxs s)) parent1 = true ∧
  run evs s = Next s' ∧
  Err (cancelled (ctxs s')) (context (b s')) = true.
Proof.
  intros s evs s'.
  assert (Hr : reachable (Some parent1) st1 s).
  { apply (run_reachable _ _ [EnvCancel 0%nat] (init (Some parent1) st1)).
    - apply reach_init, st1_ok.
    - vm_compute. reflexivity. }
  assert (Hp : Err (cancelled (ctxs s)) parent1 = true) by (vm_compute; reflexivity).
  assert (Hrun : run evs s = Next s') by (vm_compute; reflexivity).
  split; [exact Hr|]. split; [exact Hp|]. split; [exact Hrun|].
  destruct (parent_cancellation_reaches_bundle (Some parent1) st1 s evs s'
              Hr Hp Hrun) as [_ H].
  exact H.
Defined.

Lemma Join_failure_is_final_witness :
  let s := after (race ++ [CallJoin; StepJoin 0%nat; StepJoin 0%nat]) in
  let evs := [CallAdd (op_fail "E3"); StepOp 3; StepOp 3; StepOp 3; StepOp 3;
              CallJoin; StepJoin 1]%nat in
  let s' := state_of (run evs s) s in
  reachable None st0 s ∧
  join_result 0%nat s = Some (Some "E2") ∧
  run evs s = Next s' ∧
  joins s' !! 1%nat = Some (jRead 4) ∧
  ∃ s'', step (StepJoin 1%nat) s' = Next s'' ∧
         join_result 1%nat s'' = Some (Some "E2").
Proof.
  intros s evs s'.
  assert (Hr : reachable None st0 s).
  { apply (after_reachable (race ++ [CallJoin; StepJoin 0%nat; StepJoin 0%nat])).
    vm_compute. reflexivity. }
  assert (H1 : join_result 0%nat s = Some (Some "E2")) by (vm_compute; reflexivity).
  assert (H2 : run evs s = Next s') by (vm_compute; reflexivity).
  assert (H3 : joins s' !! 1%nat = Some (jRead 4)) by (vm_compute; reflexivity).
  split; [exact Hr|]. split; [exact H1|]. split; [exact H2|]. split; [exact H3|].
  destruct (Join_failure_is_final None st0 s 0%nat "E2" evs s' 1%nat 4%nat
              Hr H1 H2 H3) as [_ H].
  exact H.
Defined.

Lemma either_failure_may_win_witness :
  let s0 := state_of (run [CallAdd (op_fail "E1"); CallAdd (op_fail "E2")]
                          (init None st0)) (init None st0) in
  store_ok st0 None ∧
  ∃ evs1 evs2 s1 s2,
    only_ops evs1 = true ∧ only_ops evs2 = true ∧
    run evs1 s0 = Next s1 ∧ run evs2 s0 = Next s2 ∧
    all_exited s1 ∧ all_exited s2 ∧
    firstError (b s1) = Some "E1" ∧ firstError (b s2) = Some "E2".
Proof.
  intros s0. split; [exact st0_ok|].
  destruct (either_failure_may_win None st0 "E1" "E2" st0_ok) as [_ H].
  exact H.
Defined.

Lemma Join_without_operations_witness :
  let s := after [EnvCancel 5; CallJoin] in
  reachable None st0 s ∧ ops s = [] ∧
  ∃ s', Join s = Next s' ∧
        join_result (length (joins s)) s' = Some None ∧
        b s' = b s ∧ ctxs s' = ctxs s.
Proof.
  intros s.
  assert (Hr : reachable None st0 s).
  { apply (after_reachable [EnvCancel 5; CallJoin]). vm_compute. reflexivity. }
  split; [exact Hr|]. split; [reflexivity|].
  exact (Join_without_operations None st0 s Hr eq_refl).
Defined.

End BundleFacts.
